(** * cassandra_snapshotter.agent: the chunked, retrying upload pipeline

    A shallow embedding of [cassandra_snapshotter/agent.py].  The remote
    object store, the clock, the logger and the local disk are effects: every
    call the agent makes is appended to a chronological trace, and the
    answer of the remote service to a call is a function of the trace so
    far.  Python exceptions are results of the effect monad, so that
    [try]/[except]/[else] and "returns normally" are statements about
    values. *)

From Stdlib Require Import Lia ZArith Ascii String.
From stdpp Require Import base list strings gmap.

Local Open Scope string_scope.
Local Open Scope list_scope.
Local Open Scope nat_scope.

(** ** Module constants (agent.py, lines 25-30) *)

Definition MAX_RETRY_COUNT : nat := 3.
Definition SLEEP_TIME : nat := 2.
Definition UPLOAD_TIMEOUT : nat := 600.

(** [MBFACTOR = float(1 << 20)]: the double that is worth 2^20. *)
Definition MBFACTOR : Z := Z.shiftl 1 20.

(** The integer a double is worth when it is the nearest one to the integer
    [z], ties going to the even significand: [z] itself up to 53
    significant bits, else [z] rounded to its 53 leading bits. *)
Definition round_to_double (z : Z) : Z :=
  let a := Z.abs z in
  let e := (Z.log2 a - 52)%Z in
  if (e <=? 0)%Z then z
  else
    let q := Z.shiftr a e in
    let r := (a - Z.shiftl q e)%Z in
    let half := Z.shiftl 1 (e - 1) in
    let q' :=
      if (r <? half)%Z then q
      else if (half <? r)%Z then (q + 1)%Z
      else if Z.even q then q else (q + 1)%Z in
    (Z.sgn z * Z.shiftl q' e)%Z.

(** Doubles end below 2^1024. *)
Definition is_finite_double (z : Z) : bool := (Z.abs z <? 2 ^ 1024)%Z.

(** [int(bufsize * MBFACTOR)] for an [int] [bufsize]: the integer goes to a
    double, the product is a product of doubles (exact, the factor being a
    power of two, or infinite), and [int] of it is its value.  [None] is
    the [OverflowError] of an integer too large for a double or of
    [int(inf)]. *)
Definition int_of_product (bufsize : Z) : option Z :=
  let f := round_to_double bufsize in
  if is_finite_double f && is_finite_double (f * MBFACTOR)
  then Some (f * MBFACTOR)%Z
  else None.

(** ** Exceptions and the effect monad *)

(** [SystemExit] is what the builtin [exit] raises; it is not a subclass of
    [Exception], so [except Exception] lets it through. *)
Inductive exn : Type :=
| S3Error
| PipeError
| OSError
| IOError
| OverflowError
| ValueError
| SystemExit (code : nat).

Definition is_Exception (e : exn) : bool :=
  match e with
  | SystemExit _ => false
  | _ => true
  end.

Inductive result (A : Type) : Type :=
| Ok (a : A)
| Raise (e : exn).
Arguments Ok {A} a.
Arguments Raise {A} e.

(** A computation over a state [S]: [None] only when a loop ran out of
    fuel. *)
Definition Eff (S A : Type) : Type := S → option (result A * S).

Definition eff_ret {S A} (a : A) : Eff S A := λ s, Some (Ok a, s).

Definition eff_bind {S A B} (m : Eff S A) (k : A → Eff S B) : Eff S B :=
  λ s, match m s with
       | None => None
       | Some (Ok a, s') => k a s'
       | Some (Raise e, s') => Some (Raise e, s')
       end.

Definition raise {S A} (e : exn) : Eff S A := λ s, Some (Raise e, s).

(** [try: body / except Exception: handler / else: orelse]. *)
Definition try_except_else {S A B}
    (body : Eff S A) (handler : exn → Eff S B) (orelse : A → Eff S B) :
    Eff S B :=
  λ s, match body s with
       | None => None
       | Some (Ok a, s') => orelse a s'
       | Some (Raise e, s') =>
           if is_Exception e then handler e s' else Some (Raise e, s')
       end.

Declare Scope eff_scope.
Delimit Scope eff_scope with eff.
Notation "x <- m ;; k" := (eff_bind m (λ x, k))
  (at level 100, m at next level, right associativity) : eff_scope.
Notation "m ;;; k" := (eff_bind m (λ _, k))
  (at level 100, right associativity) : eff_scope.

(** ** The remote store, as the agent sees it *)

(** A boto [MultiPartUpload]: the upload id issued by the service and the
    key it is for. *)
Record multipart : Type := MultiPart {
  mp_id : nat;
  key_name : string;
}.

Global Instance multipart_eq_dec : EqDecision multipart.
Proof. solve_decision. Defined.

Definition chunk : Type := string.

Inductive log_record : Type :=
| InfoInitialized (source destination : string)
| ErrorInitializing (source destination : string)
| ErrorExcMessage (e : exn)
| ErrorUploading (source destination : string) (retry_count : nat)
| ErrorRetriedTooManyTimes (source : string)
| ErrorCompleting (source destination : string)
| ErrorMpXml (mp : multipart)
| ErrorCancelling.

(** One entry per call that leaves the process.  A part upload is
    recorded with the chunk it sends and its part number; [timeout] is the
    wall-clock bound the call was issued under, if any.  [EToXml] is
    [mp.to_xml()], which asks the store for the parts of the session. *)
Inductive event : Type :=
| EInitiate (key : string) (encrypt_key : bool) (issued : option nat)
| EUploadPart (mp : multipart) (fp : chunk) (index : nat)
    (timeout : option nat) (ok : bool)
| EComplete (mp : multipart) (ok : bool)
| EToXml (mp : multipart) (ok : bool)
| ECancel (mp : multipart) (ok : bool)
| EList (listed : option (list multipart))
| ESleep (seconds : nat)
| ELog (r : log_record).

Definition trace : Type := list event.

(** The behaviour of a bucket: what each call answers after a given
    history.  [None] and [false] stand for the call raising. *)
Record Bucket : Type := {
  s3_initiate : trace → string → bool → option nat;
  s3_upload_part : trace → multipart → chunk → nat → bool;
  s3_complete : trace → multipart → bool;
  s3_to_xml : trace → multipart → bool;
  s3_cancel : trace → multipart → bool;
  s3_list : trace → option (list multipart);
}.

(** Modelled from the spec: [compressed_pipe] is defined in
    [cassandra_snapshotter.utils], which is not part of the sources at
    hand.  The spec's Chunk Source is a finite ordered sequence of chunks
    that may end in a single terminal error. *)
Record chunk_source : Type := {
  cs_chunks : list chunk;
  cs_error : bool;
}.

Definition emit (e : event) : Eff trace unit := λ tr, Some (Ok tt, tr ++ [e]).

Definition log (r : log_record) : Eff trace unit := emit (ELog r).

Definition sleep (seconds : nat) : Eff trace unit := emit (ESleep seconds).

Definition initiate_multipart_upload (bucket : Bucket)
    (key : string) (encrypt_key : bool) : Eff trace multipart :=
  λ tr, match s3_initiate bucket tr key encrypt_key with
        | Some i =>
            Some (Ok (MultiPart i key),
                  tr ++ [EInitiate key encrypt_key (Some i)])
        | None => Some (Raise S3Error, tr ++ [EInitiate key encrypt_key None])
        end.

(** [mp.upload_part_from_file(fp, part_num)], issued under [bound].  The
    progress callback [cb] does nothing. *)
Definition upload_part_from_file (bucket : Bucket) (bound : option nat)
    (mp : multipart) (fp : chunk) (part_num : nat) : Eff trace unit :=
  λ tr, if s3_upload_part bucket tr mp fp part_num
        then Some (Ok tt, tr ++ [EUploadPart mp fp part_num bound true])
        else Some (Raise S3Error,
                   tr ++ [EUploadPart mp fp part_num bound false]).

Definition complete_upload (bucket : Bucket) (mp : multipart) :
    Eff trace unit :=
  λ tr, if s3_complete bucket tr mp
        then Some (Ok tt, tr ++ [EComplete mp true])
        else Some (Raise S3Error, tr ++ [EComplete mp false]).

(** [mp.to_xml()]: it lists the parts of the session at the store, so it
    can raise like any other call. *)
Definition to_xml (bucket : Bucket) (mp : multipart) : Eff trace unit :=
  λ tr, if s3_to_xml bucket tr mp
        then Some (Ok tt, tr ++ [EToXml mp true])
        else Some (Raise S3Error, tr ++ [EToXml mp false]).

(** [mp.cancel_upload()], the method of the session. *)
Definition mp_cancel_upload (bucket : Bucket) (mp : multipart) :
    Eff trace unit :=
  λ tr, if s3_cancel bucket tr mp
        then Some (Ok tt, tr ++ [ECancel mp true])
        else Some (Raise S3Error, tr ++ [ECancel mp false]).

Definition list_multipart_uploads (bucket : Bucket) :
    Eff trace (list multipart) :=
  λ tr, match s3_list bucket tr with
        | Some l => Some (Ok l, tr ++ [EList (Some l)])
        | None => Some (Raise S3Error, tr ++ [EList None])
        end.

(** ** destination_path (lines 50-52) *)

Definition destination_path (s3_base_path file_path : string)
    (compressed : bool) : string :=
  let suffix := if compressed then ".lzo" else "" in
  s3_base_path +:+ "/" +:+ (file_path +:+ suffix).

(** ** upload_chunk (lines 98-100): the timeout-wrapped part upload *)

(** Modelled from the spec: the [timeout] decorator is defined in
    [cassandra_snapshotter.timeout], which is not part of the sources at
    hand.  By the spec it bounds the call by a fixed wall-clock timeout, and
    a call that exceeds it is a failed attempt.  The bound is recorded on
    the call; a call that times out is one the store refuses. *)
Definition upload_chunk (bucket : Bucket) (mp : multipart) (c : chunk)
    (index : nat) : Eff trace unit :=
  upload_part_from_file bucket (Some UPLOAD_TIMEOUT) mp c index.

(** ** cancel_upload (lines 103-121) *)

Local Open Scope eff_scope.

(** The frame of [cancel_upload]: its local [mp] next to the trace.  The
    [for mp in bucket.list_multipart_uploads()] loop uses the function's
    own [mp] as its loop variable, so it rebinds it, and a later attempt
    starts from whatever the loop left there. *)
Definition frame : Type := (multipart * trace)%type.

Definition lift {A} (m : Eff trace A) : Eff frame A :=
  λ '(mp, tr), match m tr with
               | Some (r, tr') => Some (r, (mp, tr'))
               | None => None
               end.

Definition get_mp : Eff frame multipart := λ '(mp, tr), Some (Ok mp, (mp, tr)).

Definition set_mp (m : multipart) : Eff frame unit :=
  λ '(_, tr), Some (Ok tt, (m, tr)).

Fixpoint cancel_listed (bucket : Bucket) (remote_path : string)
    (listed : list multipart) : Eff frame unit :=
  match listed with
  | [] => eff_ret tt
  | m :: rest =>
      set_mp m ;;;
      (if decide (key_name m = remote_path)
       then lift (mp_cancel_upload bucket m)
       else eff_ret tt) ;;;
      cancel_listed bucket remote_path rest
  end.

(** The body of the [try] block, up to its [return]. *)
Definition cancel_attempt (bucket : Bucket) (remote_path : string) :
    Eff frame unit :=
  lift (sleep SLEEP_TIME) ;;;
  mp <- get_mp ;;
  lift (mp_cancel_upload bucket mp) ;;;
  lift (sleep SLEEP_TIME) ;;;
  listed <- lift (list_multipart_uploads bucket) ;;
  cancel_listed bucket remote_path listed.

(** [while attempts < 5]. *)
Fixpoint cancel_upload_loop (fuel : nat) (bucket : Bucket)
    (remote_path : string) (attempts : nat) : Eff frame unit :=
  match fuel with
  | 0 => λ _, None
  | S fuel' =>
      if attempts <? 5 then
        try_except_else (cancel_attempt bucket remote_path)
          (λ _, lift (log ErrorCancelling) ;;;
                cancel_upload_loop fuel' bucket remote_path (attempts + 1))
          (λ _, eff_ret tt)
      else eff_ret tt
  end.

(** [attempts] starts at 0 and the loop is left at 5: six units of fuel
    are all it can use. *)
Definition cancel_upload (bucket : Bucket) (mp : multipart)
    (remote_path : string) : Eff trace unit :=
  λ tr, match cancel_upload_loop 6 bucket remote_path 0 (mp, tr) with
        | Some (r, (_, tr')) => Some (r, tr')
        | None => None
        end.

(** ** upload_file (lines 60-95) *)

(** [for i, chunk in enumerate(...)]: the chunk at position [i] goes out
    as part [i + 1], directly through [mp.upload_part_from_file]. *)
Fixpoint upload_parts (bucket : Bucket) (mp : multipart) (i : nat)
    (chunks : list chunk) : Eff trace unit :=
  match chunks with
  | [] => eff_ret tt
  | c :: rest =>
      upload_part_from_file bucket None mp c (i + 1) ;;;
      upload_parts bucket mp (S i) rest
  end.

Definition upload_stream (bucket : Bucket) (mp : multipart)
    (src : chunk_source) : Eff trace unit :=
  upload_parts bucket mp 0 (cs_chunks src) ;;;
  if cs_error src then raise PipeError else eff_ret tt.

Section Upload.
Variable compressed_pipe : string → Z → chunk_source.

(** [while True], with [retry_count] the loop-carried local.  The handlers
    run outside their [try]: an exception of [mp.to_xml()] (line 91) leaves
    the function. *)
Fixpoint upload_file_loop (fuel : nat) (bucket : Bucket)
    (source destination : string) (s3_ssenc : bool) (bufsize : Z)
    (retry_count : nat) : Eff trace bool :=
  match fuel with
  | 0 => λ _, None
  | S fuel' =>
      try_except_else
        (mp <- initiate_multipart_upload bucket destination s3_ssenc ;;
         log (InfoInitialized source destination) ;;;
         eff_ret mp)
        (λ exc,
           log (ErrorInitializing source destination) ;;;
           log (ErrorExcMessage exc) ;;;
           eff_ret false)
        (λ mp,
           try_except_else
             (upload_stream bucket mp (compressed_pipe source bufsize))
             (λ exc,
                log (ErrorUploading source destination retry_count) ;;;
                log (ErrorExcMessage exc) ;;;
                if MAX_RETRY_COUNT <=? retry_count then
                  log (ErrorRetriedTooManyTimes source) ;;;
                  cancel_upload bucket mp destination ;;;
                  eff_ret false
                else
                  sleep SLEEP_TIME ;;;
                  upload_file_loop fuel' bucket source destination
                    s3_ssenc bufsize (retry_count + 1))
             (λ _,
                try_except_else
                  (complete_upload bucket mp)
                  (λ exc,
                     log (ErrorCompleting source destination) ;;;
                     log (ErrorExcMessage exc) ;;;
                     to_xml bucket mp ;;;
                     log (ErrorMpXml mp) ;;;
                     cancel_upload bucket mp destination ;;;
                     eff_ret false)
                  (λ _, eff_ret true)))
  end.

(** [upload_file] as a worker calls it ([@map_wrap] only unpacks the
    argument tuple handed over by [pool.imap]).  The loop gets the fuel it
    can use up: a round is entered again only below [MAX_RETRY_COUNT]. *)
Definition upload_file (bucket : Bucket) (source destination : string)
    (s3_ssenc : bool) (bufsize : Z) : Eff trace bool :=
  upload_file_loop (S MAX_RETRY_COUNT) bucket source destination s3_ssenc
    bufsize 0.
End Upload.

(** ** String helpers of the Python runtime used by the agent *)

Definition newline : ascii := "010"%char.
Definition carriage_return : ascii := "013"%char.

(** [string.whitespace]. *)
Definition is_space (c : ascii) : bool :=
  existsb (Ascii.eqb c)
    [" "%char; "009"%char; "010"%char; "011"%char; "012"%char; "013"%char].

(** [s.split(sep)] for a one-character separator. *)
Fixpoint split_on (sep : ascii) (s : string) : list string :=
  match s with
  | EmptyString => [""]
  | String c rest =>
      if Ascii.eqb c sep then "" :: split_on sep rest
      else match split_on sep rest with
           | hd :: tl => String c hd :: tl
           | [] => [String c ""]
           end
  end.

(** [s.split()]: runs of whitespace separate, no empty word is kept. *)
Fixpoint split_ws_from (cur : string) (s : string) : list string :=
  match s with
  | EmptyString => if decide (cur = "") then [] else [cur]
  | String c rest =>
      if is_space c then
        (if decide (cur = "") then split_ws_from "" rest
         else cur :: split_ws_from "" rest)
      else split_ws_from (cur +:+ String c "") rest
  end.

Definition split_ws (s : string) : list string := split_ws_from "" s.

Fixpoint lstrip (s : string) : string :=
  match s with
  | EmptyString => ""
  | String c rest => if is_space c then lstrip rest else s
  end.

Fixpoint rstrip (s : string) : string :=
  match s with
  | EmptyString => ""
  | String c rest =>
      match rstrip rest with
      | EmptyString => if is_space c then "" else String c ""
      | rest' => String c rest'
      end
  end.

Definition strip (s : string) : string := rstrip (lstrip s).

(** [sep.join(l)]. *)
Definition join (sep : string) (l : list string) : string :=
  String.concat sep l.

(** [s.splitlines()] on a byte string: a line ends at LF, CR or CR LF, and
    a text that ends with a line end has no empty last line. *)
Fixpoint splitlines_from (cur : string) (s : string) : list string :=
  match s with
  | EmptyString => if decide (cur = "") then [] else [cur]
  | String c rest =>
      if Ascii.eqb c newline then cur :: splitlines_from "" rest
      else if Ascii.eqb c carriage_return then
        match rest with
        | String c' rest' =>
            if Ascii.eqb c' newline then cur :: splitlines_from "" rest'
            else cur :: splitlines_from "" rest
        | EmptyString => [cur]
        end
      else splitlines_from (cur +:+ String c "") rest
  end.

Definition splitlines (s : string) : list string := splitlines_from "" s.

(** ** put_from_manifest (lines 124-150) *)

(** What the orchestrator does, in order: the pool it creates, the results
    it takes from [pool.imap], [pool.terminate()], and each [os.remove]. *)
Inductive job_event : Type :=
| JPool
| JResult (f : string) (ret : bool)
| JTerminate
| JRemove (f : string) (ok : bool).

(** [disk] holds the paths that [os.remove] can remove: the regular files
    on local disk (a directory, or a path that is not there, is not one of
    them). *)
Record job_state : Type := JobState {
  disk : gset string;
  journal : list job_event;
}.

Definition record (e : job_event) : Eff job_state unit :=
  λ st, Some (Ok tt, JobState (disk st) (journal st ++ [e])).

(** [os.remove(f)] raises [OSError] when [f] is not a file on disk. *)
Definition os_remove (f : string) : Eff job_state unit :=
  λ st, if decide (f ∈ disk st)
        then Some (Ok tt,
                   JobState (disk st ∖ {[ f ]})
                     (journal st ++ [JRemove f true]))
        else Some (Raise OSError,
                   JobState (disk st) (journal st ++ [JRemove f false])).

(** The builtin [exit]. *)
Definition exit {A} (code : nat) : Eff job_state A := raise (SystemExit code).

(** [open(manifest, 'r')] and the [read()] of line 139: [manifest] is the
    text of the file, [None] when it cannot be opened. *)
Definition read_manifest (manifest : option string) : Eff job_state string :=
  match manifest with
  | Some text => eff_ret text
  | None => raise IOError
  end.

(** Line 138. *)
Definition buffer_size_of (bufsize : Z) : Eff job_state Z :=
  match int_of_product bufsize with
  | Some buffer_size => eff_ret buffer_size
  | None => raise OverflowError
  end.

(** [Pool(concurrency)]: [None] stands for the number of processors, and a
    number below 1 is refused with [ValueError]. *)
Definition Pool (concurrency : option Z) : Eff job_state unit :=
  match concurrency with
  | Some n => if (n <? 1)%Z then raise ValueError else record JPool
  | None => record JPool
  end.

(** [for f in files: os.remove(f)]. *)
Fixpoint remove_files (files : list string) : Eff job_state unit :=
  match files with
  | [] => eff_ret tt
  | f :: rest => os_remove f ;;; remove_files rest
  end.

Section Orchestrator.
Variable compressed_pipe : string → Z → chunk_source.

(** The workers share no state: the [k]-th task of the pool talks to the
    store through its own history, [remote k] being the store's
    behaviour towards it. *)
Variable remote : nat → Bucket.

(** The next value of [pool.imap(upload_file, ...)]: the outcome of the
    task at position [k] of the manifest, whenever it was run.  An
    exception raised in the worker is raised again here, in the loop that
    takes the results. *)
Definition imap_next (s3_ssenc : bool) (s3_base_path : string)
    (buffer_size : Z) (k : nat) (f : string) : Eff job_state bool :=
  λ st,
    match upload_file compressed_pipe (remote k) f
            (destination_path s3_base_path f true) s3_ssenc buffer_size []
    with
    | Some (Ok ret, _) =>
        Some (Ok ret, JobState (disk st) (journal st ++ [JResult f ret]))
    | Some (Raise e, _) => Some (Raise e, st)
    | None => None
    end.

(** The [for ret in pool.imap(...)] loop; its value is [exit_code]. *)
Fixpoint consume_results (s3_ssenc : bool) (s3_base_path : string)
    (buffer_size : Z) (k : nat) (files : list string) :
    Eff job_state nat :=
  match files with
  | [] => eff_ret 0
  | f :: rest =>
      ret <- imap_next s3_ssenc s3_base_path buffer_size k f ;;
      if negb ret then eff_ret 1
      else consume_results s3_ssenc s3_base_path buffer_size (S k) rest
  end.

(** The connection arguments only build the bucket object the tasks talk
    to ([get_bucket] sends nothing: [validate=False]); [remote] stands for
    it.  The results come out of [pool.imap] in manifest order whatever the
    pool size. *)
Definition put_from_manifest (s3_ssenc : bool) (s3_base_path : string)
    (manifest : option string) (bufsize : Z) (concurrency : option Z)
    (incremental_backups : bool) : Eff job_state unit :=
  text <- read_manifest manifest ;;
  buffer_size <- buffer_size_of bufsize ;;
  let files := splitlines text in
  Pool concurrency ;;;
  exit_code <- consume_results s3_ssenc s3_base_path buffer_size 0 files ;;
  record JTerminate ;;;
  (if incremental_backups then remove_files files else eff_ret tt) ;;;
  exit exit_code.
End Orchestrator.

(** ** create_upload_manifest (lines 163-196) *)

Definition starts_with_slash (s : string) : bool :=
  match s with
  | String "/" _ => true
  | _ => false
  end.

Fixpoint ends_with_slash (s : string) : bool :=
  match s with
  | EmptyString => false
  | String c EmptyString => Ascii.eqb c "/"
  | String _ rest => ends_with_slash rest
  end.

(** [posixpath.join(a, *p)]. *)
Fixpoint path_join_from (path : string) (p : list string) : string :=
  match p with
  | [] => path
  | b :: rest =>
      path_join_from
        (if starts_with_slash b then b
         else if decide (path = "") then path +:+ b
         else if ends_with_slash path then path +:+ b
         else path +:+ "/" +:+ b)
        rest
  end.

Definition os_path_join (parts : list string) : string :=
  match parts with
  | [] => ""
  | a :: p => path_join_from a p
  end.

Section Manifest.
(** [glob.glob] and the [data_file_directories] of [cassandra.yaml] as
    read by [get_data_path]. *)
Variable glob : string → list string.
Variable get_data_path : string → list string.

Definition keyspace_globs_of (snapshot_keyspaces : string) : list string :=
  if decide (snapshot_keyspaces = "") then ["*"]
  else split_ws snapshot_keyspaces.

Definition table_glob_of (snapshot_table : string) : string :=
  if decide (snapshot_table = "") then "*" else snapshot_table.

(** The pattern built in the body of the two loops (lines 180-191). *)
Definition snapshot_pattern (snapshot_name table_glob : string)
    (incremental_backups : bool) (data_path keyspace_glob : string) :
    string :=
  let path := [data_path; keyspace_glob; table_glob] in
  let path :=
    if incremental_backups then path ++ ["backups"]
    else path ++ ["snapshots"; snapshot_name] in
  let path := path ++ ["*"] in
  os_path_join path.

(** Lines 192-193: what one pattern adds to [files]. *)
Definition glob_entries (pattern : string) : list string :=
  let glob_results := join (String newline "") (glob pattern) in
  map strip (split_on newline glob_results).

(** [files] when the two loops are over. *)
Definition manifest_files (snapshot_name snapshot_keyspaces
    snapshot_table conf_path : string) (incremental_backups : bool) :
    list string :=
  let keyspace_globs := keyspace_globs_of snapshot_keyspaces in
  let table_glob := table_glob_of snapshot_table in
  let data_paths := get_data_path conf_path in
  concat
    (map (λ data_path,
            concat
              (map (λ keyspace_glob,
                      glob_entries
                        (snapshot_pattern snapshot_name table_glob
                           incremental_backups data_path keyspace_glob))
                 keyspace_globs))
       data_paths).

(** The text written to [manifest_path]. *)
Definition create_upload_manifest (snapshot_name snapshot_keyspaces
    snapshot_table conf_path : string) (incremental_backups : bool) :
    string :=
  join (String newline "")
    (manifest_files snapshot_name snapshot_keyspaces snapshot_table
       conf_path incremental_backups).
End Manifest.

(** ** Reading traces *)

Fixpoint count_events (p : event → bool) (tr : trace) : nat :=
  match tr with
  | [] => 0
  | e :: tr' => (if p e then 1 else 0) + count_events p tr'
  end.

Definition is_initiated (e : event) : bool :=
  match e with EInitiate _ _ (Some _) => true | _ => false end.

Definition is_part (e : event) : bool :=
  match e with EUploadPart _ _ _ _ _ => true | _ => false end.


Definition is_failed_part (j : nat) (e : event) : bool :=
  match e with EUploadPart _ _ i _ false => i =? j | _ => false end.

Definition is_acked_part (j : nat) (e : event) : bool :=
  match e with EUploadPart _ _ i _ true => i =? j | _ => false end.

Definition is_timed_part (e : event) : bool :=
  match e with EUploadPart _ _ _ (Some _) _ => true | _ => false end.

Definition is_cancel_error (e : event) : bool :=
  match e with ELog ErrorCancelling => true | _ => false end.

(** The calls [cancel_upload] makes. *)
Definition is_cleanup (e : event) : bool :=
  match e with
  | ESleep _ | ECancel _ _ | EList _ | ELog ErrorCancelling => true
  | _ => false
  end.

(** A complete or cancel call against the session with upload id [i]. *)
Definition closes (i : nat) (e : event) : bool :=
  match e with
  | EComplete mp _ | ECancel mp _ => mp_id mp =? i
  | _ => false
  end.

Definition opens (i : nat) (e : event) : bool :=
  match e with
  | EInitiate _ _ (Some i') => i' =? i
  | _ => false
  end.

(** Chunks acknowledged are not replayed: no part index is acknowledged
    twice in the course of one task. *)
Definition acknowledged_once (tr : trace) : Prop :=
  ∀ j, count_events (is_acked_part j) tr ≤ 1.

(** Every session opened in [tr] sees a complete or a cancel call. *)
Definition sessions_closed (tr : trace) : Prop :=
  ∀ i, 0 < count_events (opens i) tr → 0 < count_events (closes i) tr.

(** Where the part uploads of a task stand: no session open for parts, or
    session [mp] waiting for part [next], with the chunks still to send. *)
Definition cursor : Type := option (multipart * nat * list chunk).

(** Part uploads go to the session initiated last and send the chunks of
    the file in their order, as parts 1, 2, 3, ...; after a refused part
    nothing is uploaded to that session any more. *)
Definition cursor_step (file : list chunk) (c : cursor) (e : event) :
    option cursor :=
  match e with
  | EInitiate key _ (Some i) => Some (Some (MultiPart i key, 1, file))
  | EUploadPart mp fp index _ ok =>
      match c with
      | Some (mp', next, fp' :: rest) =>
          if decide (mp = mp' ∧ index = next ∧ fp = fp')
          then Some (if ok then Some (mp, S next, rest) else None)
          else None
      | _ => None
      end
  | _ => Some c
  end.

Fixpoint cursor_run (file : list chunk) (c : cursor) (tr : trace) :
    option cursor :=
  match tr with
  | [] => Some c
  | e :: tr' =>
      match cursor_step file c e with
      | Some c' => cursor_run file c' tr'
      | None => None
      end
  end.

Definition restarts_from_first_part (file : list chunk) (tr : trace) : Prop :=
  is_Some (cursor_run file None tr).

(** ** Buckets and chunk sources to run the agent on *)

(** Upload ids are issued in sequence; part [j] fails on its first [M]
    attempts and succeeds from then on; every other call succeeds. *)
Definition flaky_bucket (j M : nat) : Bucket := {|
  s3_initiate tr _ _ := Some (count_events is_initiated tr);
  s3_upload_part tr _ _ i :=
    negb ((i =? j) && (count_events (is_failed_part j) tr <? M));
  s3_complete _ _ := true;
  s3_to_xml _ _ := true;
  s3_cancel _ _ := true;
  s3_list _ := Some [];
|}.

Definition reliable_bucket : Bucket := flaky_bucket 0 0.

(** A store that refuses every call. *)
Definition dead_bucket : Bucket := {|
  s3_initiate _ _ _ := None;
  s3_upload_part _ _ _ _ := false;
  s3_complete _ _ := false;
  s3_to_xml _ _ := false;
  s3_cancel _ _ := false;
  s3_list _ := None;
|}.

(** All parts are acknowledged, complete is refused; the listing of the
    parts, which [to_xml] asks for, is answered. *)
Definition no_complete_bucket : Bucket := {|
  s3_initiate tr _ _ := Some (count_events is_initiated tr);
  s3_upload_part _ _ _ _ := true;
  s3_complete _ _ := false;
  s3_to_xml _ _ := true;
  s3_cancel _ _ := true;
  s3_list _ := Some [];
|}.

(** The same, with the listing of the parts refused as well. *)
Definition no_complete_no_xml_bucket : Bucket := {|
  s3_initiate tr _ _ := Some (count_events is_initiated tr);
  s3_upload_part _ _ _ _ := true;
  s3_complete _ _ := false;
  s3_to_xml _ _ := false;
  s3_cancel _ _ := true;
  s3_list _ := Some [];
|}.

Definition two_chunks : string → Z → chunk_source :=
  λ _ _, {| cs_chunks := ["c1"; "c2"]; cs_error := false |}.

Definition one_chunk : string → Z → chunk_source :=
  λ _ _, {| cs_chunks := ["c1"]; cs_error := false |}.

(** ** Definitions used to state the properties *)

(** What a [try] block hands to [except Exception]. *)
Definition catchable {A} (r : result A) : Prop :=
  match r with
  | Ok _ => True
  | Raise e => is_Exception e = true
  end.

(** Unfolds the effect combinators and the primitive calls. *)
Ltac eff_unfold :=
  unfold eff_bind, eff_ret, try_except_else, raise, exit, record, log, sleep,
    emit, lift, get_mp, set_mp, initiate_multipart_upload,
    upload_part_from_file, complete_upload, to_xml, mp_cancel_upload,
    list_multipart_uploads in *.

(** The chunks [sent], acknowledged by [mp] as parts [i + 1], [i + 2],
    ... *)
Fixpoint parts_acked (mp : multipart) (i : nat) (sent : list chunk) : trace :=
  match sent with
  | [] => []
  | c :: rest => EUploadPart mp c (i + 1) None true :: parts_acked mp (S i) rest
  end.

(** What the chunk loop leaves in the trace: the chunks it got
    acknowledged, and the refused one if the loop was cut short. *)
Definition stream_events (mp : multipart) (i : nat) (sent : list chunk)
    (refused : option chunk) : trace :=
  parts_acked mp i sent ++
  match refused with
  | Some c => [EUploadPart mp c (i + List.length sent + 1) None false]
  | None => []
  end.

(** [sent] and [refused] are the head of the chunks of the file. *)
Definition head_of (file sent : list chunk) (refused : option chunk) : Prop :=
  match refused with
  | Some c => ∃ rest, file = sent ++ c :: rest
  | None => file = sent
  end.

(** What a round leaves in the trace when its session is opened, and when
    it ends in a retry after the exception [e]. *)
Definition session_opened (source destination : string) (s3_ssenc : bool)
    (i : nat) : trace :=
  [EInitiate destination s3_ssenc (Some i);
   ELog (InfoInitialized source destination)].

Definition retry_logged (source destination : string) (retry_count : nat)
    (e : exn) : trace :=
  [ELog (ErrorUploading source destination retry_count);
   ELog (ErrorExcMessage e);
   ESleep SLEEP_TIME].

(** Events that leave the part cursor alone. *)
Definition is_neutral (e : event) : bool :=
  negb (is_initiated e || is_part e).

(** No part upload under a timeout, and part uploads in cursor order from
    whatever the cursor was. *)
Definition orderly (file : list chunk) (ext : trace) : Prop :=
  count_events is_timed_part ext = 0
  ∧ ∀ c, is_Some (cursor_run file c ext).

(** The part upload that follows a refused upload of part [i] is for part
    [i] again. *)
Fixpoint retries_current_chunk (pending : option nat) (tr : trace) : bool :=
  match tr with
  | [] => true
  | EUploadPart _ _ j _ ok :: tr' =>
      match pending with
      | Some i => j =? i
      | None => true
      end && retries_current_chunk (if ok then None else Some j) tr'
  | _ :: tr' => retries_current_chunk pending tr'
  end.


(** The runs of one attempt of [cancel_upload] that starts with [mp] bound
    to [m]: sleep, cancel [m], sleep, list, cancel the listed sessions of
    the key in their order.  [None] is an attempt that got through;
    [Some m'] one in which a call raised, with [mp] bound to [m'] at that
    point. *)
Inductive attempt_run (remote_path : string) (m : multipart) :
    trace → option multipart → Prop :=
| cancel_refused :
    attempt_run remote_path m
      [ESleep SLEEP_TIME; ECancel m false] (Some m)
| listing_refused :
    attempt_run remote_path m
      [ESleep SLEEP_TIME; ECancel m true; ESleep SLEEP_TIME; EList None]
      (Some m)
| stragglers_cancelled listed :
    attempt_run remote_path m
      ([ESleep SLEEP_TIME; ECancel m true; ESleep SLEEP_TIME;
        EList (Some listed)]
       ++ map (λ x, ECancel x true)
            (filter (λ x, key_name x = remote_path) listed))
      None
| straggler_refused before x after :
    key_name x = remote_path →
    attempt_run remote_path m
      ([ESleep SLEEP_TIME; ECancel m true; ESleep SLEEP_TIME;
        EList (Some (before ++ x :: after))]
       ++ map (λ y, ECancel y true)
            (filter (λ y, key_name y = remote_path) before)
       ++ [ECancel x false])
      (Some x).

(** The runs of [cancel_upload] from its attempt number [n] on: an attempt
    that gets through ends the run, one that does not is logged and
    followed by the next, and after the fifth nothing more is done. *)
Inductive cancel_runs (remote_path : string) :
    nat → multipart → trace → Prop :=
| gave_up m : cancel_runs remote_path 5 m []
| got_through n m a :
    n < 5 → attempt_run remote_path m a None →
    cancel_runs remote_path n m a
| tried_again n m a m' rest :
    n < 5 → attempt_run remote_path m a (Some m') →
    cancel_runs remote_path (S n) m' rest →
    cancel_runs remote_path n m (a ++ ELog ErrorCancelling :: rest).

(** Every listed path is a file on disk, listed once: no [os.remove] will
    raise. *)
Definition removable (files : list string) (st : job_state) : Prop :=
  NoDup files ∧ Forall (λ f, f ∈ disk st) files.

(** [Pool] accepts the pool size. *)
Definition pool_size_ok (concurrency : option Z) : Prop :=
  ∀ n, concurrency = Some n → (1 ≤ n)%Z.

(** What is left of a run, in a form that prints: the result, the files on
    disk, the journal. *)
Definition summary (r : option (result unit * job_state)) :
    option (result unit * list string * list job_event) :=
  match r with
  | Some (x, st) => Some (x, elements (disk st), journal st)
  | None => None
  end.

(** A manifest of the lines [l]. *)
Definition lines (l : list string) : string := join (String newline "") l.

(** The first task meets a dead store, the others a reliable one. *)
Definition first_task_fails (k : nat) : Bucket :=
  if k =? 0 then dead_bucket else reliable_bucket.

(** The second task has its complete and its listing of parts refused, the
    others meet a reliable store. *)
Definition second_task_raises (k : nat) : Bucket :=
  if k =? 1 then no_complete_no_xml_bucket else reliable_bucket.

(** Two data directories, the first without a snapshot of that name. *)
Definition sample_glob (pattern : string) : list string :=
  if decide (pattern = "/d1/ks/*/snapshots/s1/*") then []
  else if decide (pattern = "/d2/ks/*/snapshots/s1/*")
       then ["/d2/ks/t/snapshots/s1/x.db"]
       else [].

Definition sample_data_paths (conf_path : string) : list string :=
  ["/d1"; "/d2"].

(** ** Reading the journal of a run *)

Section Outcomes.
Variable compressed_pipe : string → Z → chunk_source.
Variable remote : nat → Bucket.
Variable s3_ssenc : bool.
Variable s3_base_path : string.

(** The run of the task at position [k] of the manifest. *)
Definition task_run (buffer_size : Z) (k : nat) (f : string) :
    option (result bool * trace) :=
  upload_file compressed_pipe (remote k) f
    (destination_path s3_base_path f true) s3_ssenc buffer_size [].

(** The task returns [ret]. *)
Definition task_returns (buffer_size : Z) (k : nat) (f : string)
    (ret : bool) : Prop :=
  ∃ tr, task_run buffer_size k f = Some (Ok ret, tr).

(** The task raises [e]. *)
Definition task_raises (buffer_size : Z) (k : nat) (f : string) (e : exn) :
    Prop :=
  ∃ tr, task_run buffer_size k f = Some (Raise e, tr).

(** The outcome of the task at position [k] of the manifest. *)
Definition task_outcome (buffer_size : Z) (k : nat) (f : string) : bool :=
  match task_run buffer_size k f with
  | Some (Ok ret, _) => ret
  | _ => false
  end.

(** The results of the tasks for [files], the first of which is at
    position [k]. *)
Fixpoint results_of (buffer_size : Z) (k : nat) (files : list string) :
    list job_event :=
  match files with
  | [] => []
  | f :: rest =>
      JResult f (task_outcome buffer_size k f)
        :: results_of buffer_size (S k) rest
  end.

(** How far the result loop got: it took the results of the first [n]
    files, and either all [files] returned [True], or the [n]-th was the
    first to return [False]. *)
Definition consumed (buffer_size : Z) (k : nat) (files : list string)
    (n exit_code : nat) : Prop :=
  (exit_code = 0 ∧ n = List.length files
   ∧ ∀ i f, files !! i = Some f →
       task_returns buffer_size (k + i) f true)
  ∨ (exit_code = 1
     ∧ (∀ i f, i < n - 1 → files !! i = Some f →
          task_returns buffer_size (k + i) f true)
     ∧ ∃ f, 0 < n ∧ files !! (n - 1) = Some f
            ∧ task_returns buffer_size (k + (n - 1)) f false).

(** The result loop was cut short by the exception [e] of the task at
    position [n], the tasks before it having returned [True]. *)
Definition interrupted (buffer_size : Z) (k : nat) (files : list string)
    (n : nat) (e : exn) : Prop :=
  (∀ i f, i < n → files !! i = Some f →
     task_returns buffer_size (k + i) f true)
  ∧ ∃ f, files !! n = Some f ∧ task_raises buffer_size (k + n) f e.

(** No task whose result the loop gets to raises: the loop gets to a task
    when all the tasks before it returned [True]. *)
Definition no_worker_exception (buffer_size : Z) (files : list string) :
    Prop :=
  ∀ n e, ¬ interrupted buffer_size 0 files n e.

(** A check that can be run: every task of [files] returns. *)
Fixpoint all_return (buffer_size : Z) (k : nat) (files : list string) :
    bool :=
  match files with
  | [] => true
  | f :: rest =>
      match task_run buffer_size k f with
      | Some (Ok _, _) => all_return buffer_size (S k) rest
      | _ => false
      end
  end.
End Outcomes.

(** ** Further readings of traces and strings *)

Definition is_initiate_call (e : event) : bool :=
  match e with EInitiate _ _ _ => true | _ => false end.

Definition is_complete_call (e : event) : bool :=
  match e with EComplete _ _ => true | _ => false end.

Definition is_accepted_complete (e : event) : bool :=
  match e with EComplete _ true => true | _ => false end.

Definition is_cancel_call (e : event) : bool :=
  match e with ECancel _ _ => true | _ => false end.

(** An initiate call is for [key], with encryption flag [enc]. *)
Definition initiates_for (key : string) (enc : bool) (e : event) : Prop :=
  match e with
  | EInitiate key' enc' _ => key' = key ∧ enc' = enc
  | _ => True
  end.

(** A cancel call is on [mp] or on a session of the key [remote_path]. *)
Definition cancels_within (mp : multipart) (remote_path : string)
    (e : event) : Prop :=
  match e with
  | ECancel m _ => m = mp ∨ key_name m = remote_path
  | _ => True
  end.

(** Does [c] occur in [s]? *)
Fixpoint contains (c : ascii) (s : string) : bool :=
  match s with
  | EmptyString => false
  | String c' rest => Ascii.eqb c' c || contains c rest
  end.

(** Is every character of [s] whitespace? *)
Fixpoint all_space (s : string) : bool :=
  match s with
  | EmptyString => true
  | String c rest => is_space c && all_space rest
  end.

(** Events after which a round is over without a session being
    completed: logs, sleeps, the listing of parts, cancels and listings. *)
Definition is_quiet (e : event) : bool :=
  match e with
  | ELog _ | ESleep _ | EToXml _ _ | ECancel _ _ | EList _ => true
  | _ => false
  end.

(** What the result [r] of [upload_file] stands for in its trace [ext], on
    a file of the chunks [file].  [True]: the run ends with a session that
    was sent the chunks of the file, in their order, as parts 1, 2, ...,
    all acknowledged, and then completed, no complete and no cancel call
    having been made before.  [False]: no complete call was accepted.  An
    exception: it is the one of [mp.to_xml()] after a refused complete, no
    complete call was accepted and nothing was cancelled. *)
Definition verdict (destination : string) (s3_ssenc : bool)
    (source : string) (file : list chunk) (r : result bool) (ext : trace) :
    Prop :=
  match r with
  | Ok true =>
      ∃ pre i,
        ext = pre ++ EInitiate destination s3_ssenc (Some i)
                  :: ELog (InfoInitialized source destination)
                  :: parts_acked (MultiPart i destination) 0 file
                  ++ [EComplete (MultiPart i destination) true]
        ∧ count_events is_complete_call pre = 0
        ∧ count_events is_cancel_call pre = 0
  | Ok false => count_events is_accepted_complete ext = 0
  | Raise e =>
      e = S3Error
      ∧ count_events is_accepted_complete ext = 0
      ∧ count_events is_cancel_call ext = 0
      ∧ ∃ pre mp,
          ext = pre ++ [EComplete mp false;
                        ELog (ErrorCompleting source destination);
                        ELog (ErrorExcMessage S3Error);
                        EToXml mp false]
  end.

(** The account of a run of [upload_file] that had [k] rounds to go: what
    it called, and what its result stands for. *)
Definition accounted (destination : string) (s3_ssenc : bool)
    (source : string) (file : list chunk) (k : nat) (r : result bool)
    (ext : trace) : Prop :=
  count_events is_initiate_call ext ≤ k
  ∧ count_events is_part ext ≤ k * List.length file
  ∧ count_events is_complete_call ext ≤ 1
  ∧ Forall (initiates_for destination s3_ssenc) ext
  ∧ verdict destination s3_ssenc source file r ext.

(** Two sessions of the key ["k"]; every cancel of the second one is
    refused. *)
Definition stubborn_straggler : Bucket := {|
  s3_initiate _ _ _ := Some 0;
  s3_upload_part _ _ _ _ := true;
  s3_complete _ _ := true;
  s3_to_xml _ _ := true;
  s3_cancel _ m := negb (mp_id m =? 1);
  s3_list _ := Some [MultiPart 7 "other"; MultiPart 1 "k"];
|}.

(** A single line: no line feed and no carriage return. *)
Definition single_line (s : string) : Prop :=
  contains newline s = false ∧ contains carriage_return s = false.

(** * Properties *)

(** ** Traces *)

Lemma count_events_app (p : event → bool) (tr1 tr2 : trace) :
  count_events p (tr1 ++ tr2) = count_events p tr1 + count_events p tr2.
Proof.
  induction tr1 as [|e tr1 IH]; simpl; [done|]. rewrite IH. lia.
Qed.

Lemma count_events_none (p : event → bool) (tr : trace) :
  Forall (λ e, p e = false) tr → count_events p tr = 0.
Proof.
  induction 1 as [|e tr He _ IH]; simpl; [done|]. by rewrite He, IH.
Qed.

Lemma cursor_run_app (file : list chunk) (c : cursor) (tr1 tr2 : trace) :
  cursor_run file c (tr1 ++ tr2) =
  match cursor_run file c tr1 with
  | Some c' => cursor_run file c' tr2
  | None => None
  end.
Proof.
  revert c. induction tr1 as [|e tr1 IH]; intros c; simpl; [done|].
  destruct (cursor_step file c e); [apply IH|done].
Qed.

(** ** cancel_upload *)

Lemma cancel_listed_runs (bucket : Bucket) (remote_path : string)
    (listed : list multipart) (mp : multipart) (tr : trace) :
  ∃ r mp' ext,
    cancel_listed bucket remote_path listed (mp, tr)
      = Some (r, (mp', tr ++ ext))
    ∧ catchable r
    ∧ Forall (λ e, is_cleanup e = true) ext
    ∧ count_events is_cancel_error ext = 0.
Proof.
  revert mp tr. induction listed as [|m rest IH]; intros mp tr; simpl.
  - exists (Ok tt), mp, []. rewrite app_nil_r. by repeat split.
  - eff_unfold. simpl. destruct (decide (key_name m = remote_path)).
    + destruct (s3_cancel bucket tr m).
      * destruct (IH m (tr ++ [ECancel m true]))
          as (r & mp' & ext & E & ? & ? & Hc).
        exists r, mp', (ECancel m true :: ext). rewrite E.
        rewrite <- app_assoc. simpl. repeat split; auto.
      * exists (Raise S3Error), m, [ECancel m false]. by repeat split; auto.
    + destruct (IH m tr) as (r & mp' & ext & E & ? & ? & Hc).
      exists r, mp', ext. by rewrite E.
Qed.

Lemma cancel_attempt_runs (bucket : Bucket) (remote_path : string)
    (mp : multipart) (tr : trace) :
  ∃ r mp' ext,
    cancel_attempt bucket remote_path (mp, tr) = Some (r, (mp', tr ++ ext))
    ∧ catchable r
    ∧ Forall (λ e, is_cleanup e = true) ext
    ∧ count_events is_cancel_error ext = 0.
Proof.
  unfold cancel_attempt. eff_unfold. simpl.
  destruct (s3_cancel bucket (tr ++ [ESleep SLEEP_TIME]) mp).
  - destruct (s3_list bucket
      (((tr ++ [ESleep SLEEP_TIME]) ++ [ECancel mp true])
         ++ [ESleep SLEEP_TIME])) as [listed|].
    + edestruct (cancel_listed_runs bucket remote_path listed mp)
        as (r & mp' & ext & E & ? & ? & Hc).
      exists r, mp',
        ([ESleep SLEEP_TIME; ECancel mp true; ESleep SLEEP_TIME;
          EList (Some listed)] ++ ext).
      rewrite E. rewrite <- !app_assoc. simpl.
      repeat split; auto using Forall_cons_2.
    + exists (Raise S3Error), mp,
        [ESleep SLEEP_TIME; ECancel mp true; ESleep SLEEP_TIME; EList None].
      rewrite <- !app_assoc. simpl. repeat split; auto using Forall_cons_2.
  - exists (Raise S3Error), mp, [ESleep SLEEP_TIME; ECancel mp false].
    rewrite <- !app_assoc. simpl. repeat split; auto using Forall_cons_2.
Qed.

Lemma cancel_upload_loop_runs (bucket : Bucket) (remote_path : string)
    (fuel attempts : nat) (mp : multipart) (tr : trace) :
  5 - attempts < fuel →
  ∃ mp' ext,
    cancel_upload_loop fuel bucket remote_path attempts (mp, tr)
      = Some (Ok tt, (mp', tr ++ ext))
    ∧ Forall (λ e, is_cleanup e = true) ext
    ∧ count_events is_cancel_error ext ≤ 5 - attempts.
Proof.
  revert attempts mp tr.
  induction fuel as [|fuel IH]; intros attempts mp tr Hfuel; [lia|].
  simpl. destruct (attempts <? 5) eqn:Hlt.
  - apply Nat.ltb_lt in Hlt.
    destruct (cancel_attempt_runs bucket remote_path mp tr)
      as (r & mp1 & ext1 & E & Hr & Hext1 & Hc1).
    unfold try_except_else. rewrite E. destruct r as [[]|e].
    + exists mp1, ext1. unfold eff_ret. repeat split; auto. lia.
    + simpl in Hr. rewrite Hr. eff_unfold. simpl.
      destruct (IH (attempts + 1) mp1 ((tr ++ ext1) ++ [ELog ErrorCancelling]))
        as (mp2 & ext2 & E2 & Hext2 & Hc2); [lia|].
      exists mp2, (ext1 ++ [ELog ErrorCancelling] ++ ext2).
      rewrite E2. rewrite <- !app_assoc. repeat split.
      * apply Forall_app; split; [done|]. by constructor.
      * rewrite !count_events_app, Hc1. simpl. lia.
  - exists mp, []. unfold eff_ret. rewrite app_nil_r. repeat split; auto.
    simpl. lia.
Qed.

Lemma cancel_upload_runs (bucket : Bucket) (mp : multipart)
    (remote_path : string) (tr : trace) :
  ∃ ext,
    cancel_upload bucket mp remote_path tr = Some (Ok tt, tr ++ ext)
    ∧ Forall (λ e, is_cleanup e = true) ext
    ∧ count_events is_cancel_error ext ≤ 5.
Proof.
  unfold cancel_upload.
  destruct (cancel_upload_loop_runs bucket remote_path 6 0 mp tr)
    as (mp' & ext & E & Hext & Hc); [lia|].
  exists ext. rewrite E. repeat split; auto.
Qed.

(** More fuel does not change what the loop computes. *)
Lemma cancel_upload_loop_fuel (bucket : Bucket) (remote_path : string)
    (fuel fuel' attempts : nat) (fr : frame) (r : result unit * frame) :
  fuel ≤ fuel' →
  cancel_upload_loop fuel bucket remote_path attempts fr = Some r →
  cancel_upload_loop fuel' bucket remote_path attempts fr = Some r.
Proof.
  revert fuel' attempts fr.
  induction fuel as [|fuel IH]; intros fuel' attempts fr Hle; [done|].
  destruct fuel' as [|fuel']; [lia|]. simpl.
  destruct (attempts <? 5); [|done].
  unfold try_except_else.
  destruct (cancel_attempt bucket remote_path fr) as [[[[]|e] fr1]|]; try done.
  destruct (is_Exception e); [|done].
  unfold eff_bind.
  destruct (lift (log ErrorCancelling) fr1) as [[[[]|e'] fr2]|]; try done.
  apply IH. lia.
Qed.

(** ** The chunk loop of upload_file *)

Lemma stream_events_cons (mp : multipart) (i : nat) (c : chunk)
    (sent : list chunk) (refused : option chunk) :
  EUploadPart mp c (i + 1) None true :: stream_events mp (S i) sent refused
  = stream_events mp i (c :: sent) refused.
Proof.
  unfold stream_events. simpl.
  by replace (i + S (List.length sent) + 1)
    with (S (i + List.length sent + 1)) by lia.
Qed.

(** The chunk loop sends the chunks in their order, each with its part
    number, until one is refused. *)
Lemma upload_parts_runs (bucket : Bucket) (mp : multipart)
    (chunks : list chunk) (i : nat) (tr : trace) :
  ∃ (sent : list chunk) (refused : option chunk),
    upload_parts bucket mp i chunks tr
      = Some (match refused with Some _ => Raise S3Error | None => Ok tt end,
              tr ++ stream_events mp i sent refused)
    ∧ head_of chunks sent refused.
Proof.
  revert i tr. induction chunks as [|c rest IH]; intros i tr; simpl.
  - exists [], None. unfold stream_events, eff_ret. simpl.
    by rewrite app_nil_r.
  - eff_unfold. destruct (s3_upload_part bucket tr mp c (i + 1)).
    + destruct (IH (S i) (tr ++ [EUploadPart mp c (i + 1) None true]))
        as (sent & refused & E & Hhead).
      exists (c :: sent), refused. rewrite E, <- app_assoc. simpl.
      rewrite stream_events_cons. split; [done|].
      destruct refused as [c'|]; simpl in *.
      * destruct Hhead as [rest' ->]. by exists rest'.
      * by rewrite Hhead.
    + exists [], (Some c). unfold stream_events. simpl.
      replace (i + 0 + 1) with (i + 1) by lia. split; [done|by exists rest].
Qed.

Lemma upload_stream_runs (bucket : Bucket) (mp : multipart)
    (src : chunk_source) (tr : trace) :
  ∃ r (sent : list chunk) (refused : option chunk),
    upload_stream bucket mp src tr
      = Some (r, tr ++ stream_events mp 0 sent refused)
    ∧ catchable r
    ∧ head_of (cs_chunks src) sent refused
    ∧ match refused with
      | Some _ => r = Raise S3Error
      | None => r = if cs_error src then Raise PipeError else Ok tt
      end.
Proof.
  unfold upload_stream.
  destruct (upload_parts_runs bucket mp (cs_chunks src) 0 tr)
    as (sent & refused & E & Hhead).
  unfold eff_bind. rewrite E. destruct refused as [c|].
  - by exists (Raise S3Error), sent, (Some c).
  - destruct (cs_error src) eqn:Herr.
    + by exists (Raise PipeError), sent, None.
    + by exists (Ok tt), sent, None.
Qed.

Lemma length_parts_acked (mp : multipart) (i : nat) (sent : list chunk) :
  List.length (parts_acked mp i sent) = List.length sent.
Proof.
  revert i. induction sent as [|c sent IH]; intros i; simpl; [done|].
  by rewrite IH.
Qed.

Lemma parts_acked_inj (mp : multipart) (i : nat) (sent sent' : list chunk) :
  parts_acked mp i sent = parts_acked mp i sent' → sent = sent'.
Proof.
  revert i sent'.
  induction sent as [|c sent IH]; intros i [|c' sent'] E; try done.
  simpl in E. injection E as -> E. f_equal. by eapply IH.
Qed.

Lemma stream_events_refused_inj (mp : multipart) (i : nat)
    (sent sent' : list chunk) (c c' : chunk) :
  stream_events mp i sent (Some c) = stream_events mp i sent' (Some c') →
  sent = sent' ∧ c = c'.
Proof.
  unfold stream_events. intros E.
  assert (List.length sent = List.length sent') as Hlen.
  { apply (f_equal (@List.length event)) in E.
    rewrite !length_app, !length_parts_acked in E. simpl in E. lia. }
  apply app_inj_1 in E as [E1 E2]; [|by rewrite !length_parts_acked].
  injection E2 as -> _. split; [|done]. by eapply parts_acked_inj.
Qed.

Lemma cursor_run_parts_acked (file : list chunk) (mp : multipart) (i : nat)
    (sent rest : list chunk) :
  cursor_run file (Some (mp, i + 1, sent ++ rest)) (parts_acked mp i sent)
  = Some (Some (mp, i + List.length sent + 1, rest)).
Proof.
  revert i. induction sent as [|c sent IH]; intros i; simpl.
  - by replace (i + 0 + 1) with (i + 1) by lia.
  - rewrite decide_True by done.
    replace (S (i + 1)) with (S i + 1) by lia. rewrite IH.
    by replace (S i + List.length sent + 1)
      with (i + S (List.length sent) + 1) by lia.
Qed.

Lemma cursor_run_stream_events (file : list chunk) (mp : multipart)
    (sent : list chunk) (refused : option chunk) :
  head_of file sent refused →
  is_Some (cursor_run file (Some (mp, 1, file))
             (stream_events mp 0 sent refused)).
Proof.
  intros Hhead. unfold stream_events. rewrite cursor_run_app.
  change 1 with (0 + 1) at 1.
  destruct refused as [c|]; simpl in Hhead.
  - destruct Hhead as [rest ->].
    rewrite (cursor_run_parts_acked _ mp 0 sent (c :: rest)). simpl.
    by rewrite decide_True.
  - subst file.
    pose proof (cursor_run_parts_acked sent mp 0 sent []) as H.
    rewrite app_nil_r in H. by rewrite H.
Qed.

Lemma count_timed_parts_acked (mp : multipart) (i : nat)
    (sent : list chunk) :
  count_events is_timed_part (parts_acked mp i sent) = 0.
Proof.
  revert i. induction sent as [|c sent IH]; intros i; simpl; [done|].
  apply IH.
Qed.

Lemma count_timed_stream_events (mp : multipart) (i : nat)
    (sent : list chunk) (refused : option chunk) :
  count_events is_timed_part (stream_events mp i sent refused) = 0.
Proof.
  unfold stream_events.
  rewrite count_events_app, count_timed_parts_acked.
  by destruct refused.
Qed.

(** ** upload_file *)

Arguments upload_stream : simpl never.
Arguments cancel_upload : simpl never.
Local Arguments Nat.leb : simpl never.

Lemma cleanup_neutral (ext : trace) :
  Forall (λ e, is_cleanup e = true) ext →
  Forall (λ e, is_neutral e = true) ext.
Proof.
  intros Hext. eapply Forall_impl; [exact Hext|].
  intros e He. by destruct e.
Qed.

Lemma cursor_run_neutral (file : list chunk) (c : cursor) (tr : trace) :
  Forall (λ e, is_neutral e = true) tr → cursor_run file c tr = Some c.
Proof.
  induction 1 as [|e tr He _ IH]; simpl; [done|].
  destruct e as [? ? []| | | | | | |]; try discriminate He; simpl; exact IH.
Qed.

Lemma orderly_neutral (file : list chunk) (ext : trace) :
  Forall (λ e, is_neutral e = true) ext → orderly file ext.
Proof.
  intros Hext. split.
  - apply count_events_none. eapply Forall_impl; [exact Hext|].
    intros e He. by destruct e.
  - intros c. by rewrite cursor_run_neutral.
Qed.

Lemma orderly_app (file : list chunk) (ext1 ext2 : trace) :
  orderly file ext1 → orderly file ext2 → orderly file (ext1 ++ ext2).
Proof.
  intros [Ht1 Hc1] [Ht2 Hc2]. split.
  - rewrite count_events_app. lia.
  - intros c. rewrite cursor_run_app.
    destruct (Hc1 c) as [c' ->]. apply Hc2.
Qed.

Lemma orderly_attempt (file : list chunk) (source key : string) (enc : bool)
    (i : nat) (sent : list chunk) (refused : option chunk) (tail : trace) :
  head_of file sent refused →
  orderly file tail →
  orderly file (session_opened source key enc i
                ++ stream_events (MultiPart i key) 0 sent refused ++ tail).
Proof.
  intros Hhead [Ht Hc]. split.
  - simpl. rewrite count_events_app, count_timed_stream_events. exact Ht.
  - intros c. simpl. rewrite cursor_run_app.
    destruct (cursor_run_stream_events file (MultiPart i key) sent refused
                Hhead) as [c' ->].
    apply Hc.
Qed.

Section UploadFacts.
Variable compressed_pipe : string → Z → chunk_source.
Variable bucket : Bucket.
Variables source destination : string.
Variable s3_ssenc : bool.
Variable bufsize : Z.

Local Abbreviation file := (cs_chunks (compressed_pipe source bufsize)).

(** The loop ends within [MAX_RETRY_COUNT + 1] rounds, whatever the store
    answers; no part upload carries a timeout, and the parts of each round
    go to that round's session, the chunks of the file in their order from
    part 1 on.  A round whose initiate is accepted opens with the session
    and what the chunk loop got done. *)
Lemma upload_file_loop_runs (fuel retry_count : nat) (tr : trace) :
  MAX_RETRY_COUNT - retry_count < fuel →
  ∃ r ext,
    upload_file_loop compressed_pipe fuel bucket source destination
      s3_ssenc bufsize retry_count tr = Some (r, tr ++ ext)
    ∧ orderly file ext
    ∧ ∀ i, s3_initiate bucket tr destination s3_ssenc = Some i →
        ∃ sent refused tail,
          head_of file sent refused
          ∧ ext = session_opened source destination s3_ssenc i
                  ++ stream_events (MultiPart i destination) 0 sent refused
                  ++ tail.
Proof.
  revert retry_count tr.
  induction fuel as [|fuel IH]; intros retry_count tr Hfuel; [lia|].
  simpl. eff_unfold.
  destruct (s3_initiate bucket tr destination s3_ssenc) as [i|]; simpl.
  2:{ eexists (Ok false), [_; _; _]. rewrite <- !app_assoc. simpl.
      split; [done|]. split; [|done].
      by apply orderly_neutral; repeat constructor. }
  set (mp := MultiPart i destination).
  set (tr1 := (tr ++ _) ++ _).
  destruct (upload_stream_runs bucket mp
              (compressed_pipe source bufsize) tr1)
    as (r & sent & refused & E & Hr & Hhead & Hshape).
  rewrite E.
  assert (Hcut : ∀ (x : result bool) tail tr',
    tr' = (tr1 ++ stream_events mp 0 sent refused) ++ tail →
    orderly file tail →
    ∃ (x' : result bool) ext,
      Some (x, tr') = Some (x', tr ++ ext)
      ∧ orderly file ext
      ∧ ∀ i', Some i = Some i' →
          ∃ sent' refused' tail',
            head_of file sent' refused'
            ∧ ext = session_opened source destination s3_ssenc i'
                    ++ stream_events (MultiPart i' destination) 0 sent'
                         refused'
                    ++ tail').
  { intros x tail tr' -> Htail.
    exists x, (session_opened source destination s3_ssenc i
               ++ stream_events mp 0 sent refused ++ tail).
    split; [|split].
    - subst tr1. by rewrite <- !app_assoc.
    - by apply orderly_attempt.
    - intros i' [= <-]. by exists sent, refused, tail. }
  destruct r as [[]|e].
  - destruct (s3_complete bucket _ mp).
    + eapply Hcut; [done|]. by apply orderly_neutral; repeat constructor.
    + simpl. destruct (s3_to_xml bucket _ mp); simpl.
      * edestruct (cancel_upload_runs bucket mp destination)
          as (ext & -> & Hext & _).
        eapply (Hcut (Ok false) (_ :: _ :: _ :: _ :: _ :: ext)).
        -- by rewrite <- !app_assoc.
        -- apply (orderly_neutral _ (_ :: _ :: _ :: _ :: _ :: ext)).
           repeat (constructor; [done|]). by apply cleanup_neutral.
      * eapply (Hcut (Raise S3Error) [_; _; _; _]).
        -- by rewrite <- !app_assoc.
        -- by apply orderly_neutral; repeat constructor.
  - simpl in Hr. rewrite Hr.
    destruct (MAX_RETRY_COUNT <=? retry_count) eqn:Hmax.
    + edestruct (cancel_upload_runs bucket mp destination)
        as (ext & -> & Hext & _).
      eapply (Hcut (Ok false) (_ :: _ :: _ :: ext)).
      * by rewrite <- !app_assoc.
      * apply (orderly_neutral _ (_ :: _ :: _ :: ext)).
        repeat (constructor; [done|]). by apply cleanup_neutral.
    + apply Nat.leb_gt in Hmax.
      edestruct (IH (retry_count + 1)) as (x & ext & -> & Hext & _); [lia|].
      eapply (Hcut x ([_; _; _] ++ ext)).
      * by rewrite <- !app_assoc.
      * apply orderly_app; [|done].
        by apply orderly_neutral; repeat constructor.
Qed.

(** A round whose chunk loop raises below [MAX_RETRY_COUNT] logs, sleeps
    and hands over to the next round. *)
Lemma upload_file_loop_retries (fuel retry_count : nat) (tr tr2 : trace)
    (i : nat) (e : exn) :
  retry_count < MAX_RETRY_COUNT →
  s3_initiate bucket tr destination s3_ssenc = Some i →
  upload_stream bucket (MultiPart i destination)
    (compressed_pipe source bufsize)
    (tr ++ session_opened source destination s3_ssenc i)
    = Some (Raise e, tr2) →
  is_Exception e = true →
  upload_file_loop compressed_pipe (S fuel) bucket source destination
    s3_ssenc bufsize retry_count tr
  = upload_file_loop compressed_pipe fuel bucket source destination
      s3_ssenc bufsize (retry_count + 1)
      (tr2 ++ retry_logged source destination retry_count e).
Proof.
  intros Hrc Hinit Hstream He. simpl. eff_unfold. rewrite Hinit. simpl.
  unfold session_opened in Hstream. rewrite <- app_assoc. simpl.
  rewrite Hstream, He.
  destruct (Nat.leb_spec MAX_RETRY_COUNT retry_count); [lia|].
  by rewrite <- !app_assoc.
Qed.

(** A round whose chunk loop gets through and whose complete is refused. *)
Lemma upload_file_loop_complete_refused (fuel retry_count : nat)
    (tr tr2 : trace) (i : nat) :
  s3_initiate bucket tr destination s3_ssenc = Some i →
  upload_stream bucket (MultiPart i destination)
    (compressed_pipe source bufsize)
    (tr ++ session_opened source destination s3_ssenc i)
    = Some (Ok tt, tr2) →
  s3_complete bucket tr2 (MultiPart i destination) = false →
  let mp := MultiPart i destination in
  let failed :=
    tr2 ++ [EComplete mp false;
            ELog (ErrorCompleting source destination);
            ELog (ErrorExcMessage S3Error)] in
  tr2 = (tr ++ session_opened source destination s3_ssenc i)
        ++ parts_acked mp 0 file
  ∧ upload_file_loop compressed_pipe (S fuel) bucket source destination
      s3_ssenc bufsize retry_count tr
    = if s3_to_xml bucket failed mp
      then match cancel_upload bucket mp destination
                   (failed ++ [EToXml mp true; ELog (ErrorMpXml mp)]) with
           | Some (Ok _, tr') => Some (Ok false, tr')
           | Some (Raise e, tr') => Some (Raise e, tr')
           | None => None
           end
      else Some (Raise S3Error, failed ++ [EToXml mp false]).
Proof.
  intros Hinit Hstream Hcomplete mp failed. subst mp failed. split.
  - destruct (upload_stream_runs bucket (MultiPart i destination)
      (compressed_pipe source bufsize)
      (tr ++ session_opened source destination s3_ssenc i))
      as (r & sent & refused & E' & _ & Hhead & Hshape).
    rewrite Hstream in E'. injection E' as <- ->.
    destruct refused; [done|]. simpl in Hhead. rewrite Hhead.
    unfold stream_events. by rewrite app_nil_r.
  - simpl. eff_unfold. rewrite Hinit. simpl.
    unfold session_opened in Hstream. rewrite <- app_assoc. simpl.
    rewrite Hstream, Hcomplete. simpl. rewrite <- !app_assoc. simpl.
    destruct (s3_to_xml bucket _ _); [|done]. rewrite <- !app_assoc. simpl.
    by destruct (cancel_upload bucket _ _ _) as [[[[]|] ?]|].
Qed.
End UploadFacts.

(** [upload_file] runs the loop on [MAX_RETRY_COUNT + 1] units of fuel;
    more fuel gives the same run. *)
Lemma upload_file_loop_fuel (compressed_pipe : string → Z → chunk_source)
    (bucket : Bucket) (source destination : string) (s3_ssenc : bool)
    (bufsize : Z) (fuel fuel' retry_count : nat) (tr : trace)
    (r : result bool * trace) :
  fuel ≤ fuel' →
  upload_file_loop compressed_pipe fuel bucket source destination s3_ssenc
    bufsize retry_count tr = Some r →
  upload_file_loop compressed_pipe fuel' bucket source destination s3_ssenc
    bufsize retry_count tr = Some r.
Proof.
  revert fuel' retry_count tr.
  induction fuel as [|fuel IH]; intros fuel' rc tr Hle; [done|].
  destruct fuel' as [|fuel']; [lia|]. simpl.
  unfold try_except_else, eff_bind.
  repeat (case_match; try done).
  apply IH. lia.
Qed.

(** [upload_file] returns or raises on every input: it never runs out of
    fuel. *)
Lemma upload_file_runs (compressed_pipe : string → Z → chunk_source)
    (bucket : Bucket) (source destination : string) (s3_ssenc : bool)
    (bufsize : Z) (tr : trace) :
  ∃ r ext,
    upload_file compressed_pipe bucket source destination s3_ssenc bufsize tr
      = Some (r, tr ++ ext)
    ∧ orderly (cs_chunks (compressed_pipe source bufsize)) ext.
Proof.
  destruct (upload_file_loop_runs compressed_pipe bucket source destination
              s3_ssenc bufsize (S MAX_RETRY_COUNT) 0 tr)
    as (r & ext & E & Hext & _); [unfold MAX_RETRY_COUNT; lia|].
  by exists r, ext.
Qed.

(** C1, as stated, fails.  A file of two chunks whose part 2 is refused
    once: the retry opens a second session and sends part 1 again, so the
    upload that follows the refused part 2 is part 1, and part 1 is
    acknowledged twice in the task. *)
Lemma retry_replays_acknowledged_chunks :
  ∃ tr,
    upload_file two_chunks (flaky_bucket 2 1) "f" "base/f.lzo" false 64 []
      = Some (Ok true, tr)
    ∧ retries_current_chunk None tr = false
    ∧ count_events (is_acked_part 1) tr = 2
    ∧ ¬ acknowledged_once tr.
Proof.
  eexists. split; [vm_compute; reflexivity|].
  split; [reflexivity|]. split; [reflexivity|].
  intros H. specialize (H 1). vm_compute in H. lia.
Qed.

(** A trace in which the refused part 2 is sent again to the same session,
    as a per-chunk retry would do, is not one that restarts from the first
    part; nor is one in which the new session is sent the second chunk
    first. *)
Example same_session_retry_is_told_apart :
  ¬ restarts_from_first_part ["c1"; "c2"]
      [EInitiate "k" false (Some 0);
       EUploadPart (MultiPart 0 "k") "c1" 1 None true;
       EUploadPart (MultiPart 0 "k") "c2" 2 None false;
       EUploadPart (MultiPart 0 "k") "c2" 2 None true;
       EComplete (MultiPart 0 "k") true]
  ∧ ¬ restarts_from_first_part ["c1"; "c2"]
      [EInitiate "k" false (Some 0);
       EUploadPart (MultiPart 0 "k") "c1" 1 None true;
       EUploadPart (MultiPart 0 "k") "c2" 2 None false;
       EInitiate "k" false (Some 1);
       EUploadPart (MultiPart 1 "k") "c2" 1 None true;
       EComplete (MultiPart 1 "k") true].
Proof. split; intros [c Hc]; discriminate Hc. Qed.

(** C1, amended: a retry is of the whole file, on a new session.  Take a
    round of [upload_file], below [MAX_RETRY_COUNT], whose session [i] got
    the chunks [sent] acknowledged and was refused the chunk [c] that
    follows them, and let the store accept the initiate of the retry, as
    session [i'].  Then the task logs the failure, sleeps [SLEEP_TIME],
    initiates session [i'] and sends it the chunks of the file from the
    first one, as parts 1, 2, ...: the upload that follows the refused one
    is of the first chunk, as part 1 of the new session, and the chunks
    below [c], acknowledged before, go out again before [c] does.  All
    through the run, part uploads go to the session initiated last, in the
    order of the chunks, and nothing is uploaded after a refused part
    until a new session is initiated. *)
Theorem retry_restarts_from_first_part
    (compressed_pipe : string → Z → chunk_source) (bucket : Bucket)
    (source destination : string) (s3_ssenc : bool) (bufsize : Z)
    (fuel retry_count : nat) (tr : trace) (i i' : nat) (sent : list chunk)
    (c : chunk) :
  retry_count < MAX_RETRY_COUNT →
  MAX_RETRY_COUNT - retry_count < fuel →
  s3_initiate bucket tr destination s3_ssenc = Some i →
  upload_stream bucket (MultiPart i destination)
    (compressed_pipe source bufsize)
    (tr ++ session_opened source destination s3_ssenc i)
    = Some (Raise S3Error,
            (tr ++ session_opened source destination s3_ssenc i)
            ++ stream_events (MultiPart i destination) 0 sent (Some c)) →
  s3_initiate bucket
    (tr ++ session_opened source destination s3_ssenc i
        ++ stream_events (MultiPart i destination) 0 sent (Some c)
        ++ retry_logged source destination retry_count S3Error)
    destination s3_ssenc = Some i' →
  ∃ (c1 : chunk) (ok : bool) (sent' : list chunk) (refused' : option chunk)
    (r : result bool) (tail rest : trace),
    upload_file_loop compressed_pipe fuel bucket source destination s3_ssenc
      bufsize retry_count tr
    = Some (r, tr ++ session_opened source destination s3_ssenc i
                  ++ stream_events (MultiPart i destination) 0 sent (Some c)
                  ++ retry_logged source destination retry_count S3Error
                  ++ session_opened source destination s3_ssenc i'
                  ++ stream_events (MultiPart i' destination) 0 sent'
                       refused'
                  ++ rest)
    ∧ head_of (cs_chunks (compressed_pipe source bufsize)) sent' refused'
    ∧ head (cs_chunks (compressed_pipe source bufsize)) = Some c1
    ∧ stream_events (MultiPart i' destination) 0 sent' refused'
      = EUploadPart (MultiPart i' destination) c1 1 None ok :: tail
    ∧ ∀ cur,
        is_Some
          (cursor_run (cs_chunks (compressed_pipe source bufsize)) cur
             (session_opened source destination s3_ssenc i
              ++ stream_events (MultiPart i destination) 0 sent (Some c)
              ++ retry_logged source destination retry_count S3Error
              ++ session_opened source destination s3_ssenc i'
              ++ stream_events (MultiPart i' destination) 0 sent' refused'
              ++ rest)).
Proof.
  intros Hrc Hfuel Hinit Hstream Hinit'.
  destruct fuel as [|fuel]; [lia|].
  set (file := cs_chunks (compressed_pipe source bufsize)).
  assert (Hhead : head_of file sent (Some c)).
  { destruct (upload_stream_runs bucket (MultiPart i destination)
      (compressed_pipe source bufsize)
      (tr ++ session_opened source destination s3_ssenc i))
      as (x & sent0 & refused0 & E & _ & Hhead0 & Hx).
    rewrite Hstream in E. injection E as <- E. apply app_inv_head in E.
    destruct refused0 as [c0|];
      [|by destruct (cs_error (compressed_pipe source bufsize))].
    by apply stream_events_refused_inj in E as [-> ->]. }
  rewrite (upload_file_loop_retries _ _ _ _ _ _ fuel retry_count tr _ i
             S3Error Hrc Hinit Hstream eq_refl).
  rewrite <- !app_assoc.
  destruct (upload_file_loop_runs compressed_pipe bucket source destination
              s3_ssenc bufsize fuel (retry_count + 1)
              (tr ++ session_opened source destination s3_ssenc i
                  ++ stream_events (MultiPart i destination) 0 sent (Some c)
                  ++ retry_logged source destination retry_count S3Error))
    as (r & ext & E & Hext & Hround); [lia|].
  destruct (Hround i' Hinit') as (sent' & refused' & rest & Hhead' & ->).
  assert (Hfirst : ∃ c1 ok tail,
    head file = Some c1
    ∧ stream_events (MultiPart i' destination) 0 sent' refused'
      = EUploadPart (MultiPart i' destination) c1 1 None ok :: tail).
  { destruct Hhead as [after Hfile]. unfold file in *.
    destruct sent' as [|c1 sent'].
    - destruct refused' as [c1|]; simpl in Hhead'.
      + destruct Hhead' as [after' Hfile']. exists c1, false, [].
        by rewrite Hfile'.
      + rewrite Hhead' in Hfile. by destruct sent.
    - exists c1, true. eexists. split; [|done].
      destruct refused'; simpl in Hhead'.
      + destruct Hhead' as [after' ->]. done.
      + by rewrite Hhead'. }
  destruct Hfirst as (c1 & ok & tail & Hc1 & Htail).
  exists c1, ok, sent', refused', r, tail, rest.
  split; [|split; [exact Hhead'|split; [exact Hc1|split; [exact Htail|]]]].
  - rewrite E. by rewrite <- !app_assoc.
  - intros cur.
    assert (Hfst : orderly file
      (session_opened source destination s3_ssenc i
       ++ stream_events (MultiPart i destination) 0 sent (Some c)
       ++ retry_logged source destination retry_count S3Error)).
    { apply orderly_attempt; [exact Hhead|].
      by apply orderly_neutral; repeat constructor. }
    pose proof (orderly_app _ _ _ Hfst Hext) as [_ Hall].
    rewrite <- !app_assoc in Hall. apply Hall.
Qed.

Lemma retry_restarts_from_first_part_witness :
  ∃ (c1 : chunk) (ok : bool) (sent' : list chunk) (refused' : option chunk)
    (r : result bool) (tail rest : trace),
    upload_file_loop two_chunks 4 (flaky_bucket 2 1) "f" "base/f.lzo" false
      64 0 []
    = Some (r, [] ++ session_opened "f" "base/f.lzo" false 0
                  ++ stream_events (MultiPart 0 "base/f.lzo") 0 ["c1"]
                       (Some "c2")
                  ++ retry_logged "f" "base/f.lzo" 0 S3Error
                  ++ session_opened "f" "base/f.lzo" false 1
                  ++ stream_events (MultiPart 1 "base/f.lzo") 0 sent'
                       refused'
                  ++ rest)
    ∧ head_of ["c1"; "c2"] sent' refused'
    ∧ head ["c1"; "c2"] = Some c1
    ∧ stream_events (MultiPart 1 "base/f.lzo") 0 sent' refused'
      = EUploadPart (MultiPart 1 "base/f.lzo") c1 1 None ok :: tail
    ∧ ∀ cur,
        is_Some
          (cursor_run ["c1"; "c2"] cur
             (session_opened "f" "base/f.lzo" false 0
              ++ stream_events (MultiPart 0 "base/f.lzo") 0 ["c1"]
                   (Some "c2")
              ++ retry_logged "f" "base/f.lzo" 0 S3Error
              ++ session_opened "f" "base/f.lzo" false 1
              ++ stream_events (MultiPart 1 "base/f.lzo") 0 sent' refused'
              ++ rest)).
Proof.
  apply (retry_restarts_from_first_part two_chunks (flaky_bucket 2 1) "f"
           "base/f.lzo" false 64 4 0 [] 0 1 ["c1"] "c2");
    [unfold MAX_RETRY_COUNT; lia|unfold MAX_RETRY_COUNT; lia
    |reflexivity|reflexivity|reflexivity].
Defined.

(** C3: the code breaks the claim.  One chunk, refused once and accepted on
    the retry: the session opened first (upload id 0) receives neither a
    complete nor a cancel call, while the task reports success. *)
Theorem retry_abandons_session :
  ∃ tr,
    upload_file one_chunk (flaky_bucket 1 1) "f" "base/f.lzo" false 64 []
      = Some (Ok true, tr)
    ∧ count_events (opens 0) tr = 1
    ∧ count_events (closes 0) tr = 0
    ∧ ¬ sessions_closed tr.
Proof.
  eexists. split; [vm_compute; reflexivity|].
  split; [reflexivity|]. split; [reflexivity|].
  intros H. specialize (H 0). vm_compute in H. lia.
Qed.

(** No run of [upload_file] issues a part upload under a timeout. *)
Lemma upload_file_parts_untimed
    (compressed_pipe : string → Z → chunk_source) (bucket : Bucket)
    (source destination : string) (s3_ssenc : bool) (bufsize : Z) :
  ∃ r tr,
    upload_file compressed_pipe bucket source destination s3_ssenc bufsize []
      = Some (r, tr)
    ∧ count_events is_timed_part tr = 0.
Proof.
  destruct (upload_file_runs compressed_pipe bucket source destination
              s3_ssenc bufsize []) as (r & ext & E & Ht & _).
  by exists r, ext.
Qed.

(** C6: the code breaks the claim.  On a file of one chunk the part goes out
    through [mp.upload_part_from_file] with no bound, where [upload_chunk]
    would have issued it under [UPLOAD_TIMEOUT]. *)
Theorem part_upload_bypasses_upload_chunk :
  let mp := MultiPart 0 "base/f.lzo" in
  upload_file one_chunk reliable_bucket "f" "base/f.lzo" false 64 []
    = Some (Ok true,
            [EInitiate "base/f.lzo" false (Some 0);
             ELog (InfoInitialized "f" "base/f.lzo");
             EUploadPart mp "c1" 1 None true;
             EComplete mp true])
  ∧ upload_chunk reliable_bucket mp "c1" 1 []
    = Some (Ok tt, [EUploadPart mp "c1" 1 (Some UPLOAD_TIMEOUT) true]).
Proof.
  split; reflexivity.
Qed.

(** C7: when [initiate_multipart_upload] raises, the task returns [False] at
    once: in any round of the loop the only call made is the refused
    initiate, followed by the two error logs; initiation is not retried and
    [cancel_upload] is not called. *)
Theorem initiation_failure_is_fatal
    (compressed_pipe : string → Z → chunk_source) (bucket : Bucket)
    (source destination : string) (s3_ssenc : bool) (bufsize : Z)
    (tr : trace) :
  s3_initiate bucket tr destination s3_ssenc = None →
  let final :=
    Some (Ok false,
          tr ++ [EInitiate destination s3_ssenc None;
                 ELog (ErrorInitializing source destination);
                 ELog (ErrorExcMessage S3Error)]) in
  upload_file compressed_pipe bucket source destination s3_ssenc bufsize tr
    = final
  ∧ ∀ fuel retry_count,
      upload_file_loop compressed_pipe (S fuel) bucket source destination
        s3_ssenc bufsize retry_count tr = final.
Proof.
  intros Hinit final.
  assert (Hround : ∀ fuel retry_count,
    upload_file_loop compressed_pipe (S fuel) bucket source destination
      s3_ssenc bufsize retry_count tr = final).
  { intros fuel retry_count. simpl. eff_unfold. rewrite Hinit. simpl.
    subst final. by rewrite <- !app_assoc. }
  split; [apply Hround|exact Hround].
Qed.

Lemma initiation_failure_is_fatal_witness :
  upload_file two_chunks dead_bucket "f" "base/f.lzo" true 64 []
  = Some (Ok false,
          [EInitiate "base/f.lzo" true None;
           ELog (ErrorInitializing "f" "base/f.lzo");
           ELog (ErrorExcMessage S3Error)]).
Proof.
  apply (initiation_failure_is_fatal two_chunks dead_bucket "f" "base/f.lzo"
           true 64 []).
  reflexivity.
Defined.

(** When the complete call is refused and the listing of the parts that
    [mp.to_xml()] asks for is refused as well, the exception of [to_xml]
    leaves [upload_file]: the handler it is raised in is not inside a
    [try].  The session is not cancelled and no [False] is returned. *)
Lemma refused_to_xml_leaves_upload_file
    (compressed_pipe : string → Z → chunk_source) (bucket : Bucket)
    (source destination : string) (s3_ssenc : bool) (bufsize : Z)
    (fuel retry_count : nat) (tr tr2 : trace) (i : nat) :
  s3_initiate bucket tr destination s3_ssenc = Some i →
  upload_stream bucket (MultiPart i destination)
    (compressed_pipe source bufsize)
    (tr ++ session_opened source destination s3_ssenc i)
    = Some (Ok tt, tr2) →
  s3_complete bucket tr2 (MultiPart i destination) = false →
  s3_to_xml bucket
    (tr2 ++ [EComplete (MultiPart i destination) false;
             ELog (ErrorCompleting source destination);
             ELog (ErrorExcMessage S3Error)])
    (MultiPart i destination) = false →
  upload_file_loop compressed_pipe (S fuel) bucket source destination
    s3_ssenc bufsize retry_count tr
  = Some (Raise S3Error,
          tr2 ++ [EComplete (MultiPart i destination) false;
                  ELog (ErrorCompleting source destination);
                  ELog (ErrorExcMessage S3Error);
                  EToXml (MultiPart i destination) false]).
Proof.
  intros Hinit Hstream Hcomplete Hxml.
  destruct (upload_file_loop_complete_refused compressed_pipe bucket source
              destination s3_ssenc bufsize fuel retry_count tr tr2 i
              Hinit Hstream Hcomplete) as [_ E].
  rewrite E, Hxml. by rewrite <- !app_assoc.
Qed.

(** C8: the code breaks the claim.  A file of one chunk, against a store
    that acknowledges the part and refuses the complete call and the
    listing of the parts: [upload_file] raises the exception of
    [mp.to_xml()], which the error log of the handler calls before
    [cancel_upload]; the session is never cancelled and the task does not
    return [False]. *)
Theorem completion_failure_can_raise :
  let mp := MultiPart 0 "base/f.lzo" in
  let tr :=
    [EInitiate "base/f.lzo" false (Some 0);
     ELog (InfoInitialized "f" "base/f.lzo");
     EUploadPart mp "c1" 1 None true;
     EComplete mp false;
     ELog (ErrorCompleting "f" "base/f.lzo");
     ELog (ErrorExcMessage S3Error);
     EToXml mp false] in
  upload_file one_chunk no_complete_no_xml_bucket "f" "base/f.lzo" false 64 []
    = Some (Raise S3Error, tr)
  ∧ count_events is_cancel_call tr = 0
  ∧ count_events (closes 0) tr = 1
  ∧ count_events is_accepted_complete tr = 0.
Proof.
  repeat split; reflexivity.
Qed.

(** ** The runs of cancel_upload *)

Lemma cancel_listed_shape (bucket : Bucket) (remote_path : string)
    (listed : list multipart) (mp : multipart) (tr : trace) :
  (∃ mp',
     cancel_listed bucket remote_path listed (mp, tr)
     = Some (Ok tt,
             (mp', tr ++ map (λ x, ECancel x true)
                           (filter (λ x, key_name x = remote_path) listed))))
  ∨ (∃ before x after,
       listed = before ++ x :: after
       ∧ key_name x = remote_path
       ∧ cancel_listed bucket remote_path listed (mp, tr)
         = Some (Raise S3Error,
                 (x, tr ++ map (λ y, ECancel y true)
                            (filter (λ y, key_name y = remote_path) before)
                        ++ [ECancel x false]))).
Proof.
  revert mp tr. induction listed as [|m rest IH]; intros mp tr; simpl.
  - left. exists mp. unfold eff_ret. by rewrite app_nil_r.
  - eff_unfold. simpl. destruct (decide (key_name m = remote_path)) as [Hk|Hk].
    + destruct (s3_cancel bucket tr m) eqn:Hc.
      * destruct (IH m (tr ++ [ECancel m true]))
          as [[mp' E]|(before & x & after & -> & Hx & E)].
        -- left. exists mp'. rewrite E, filter_cons_True by done.
           by rewrite <- app_assoc.
        -- right. exists (m :: before), x, after.
           split; [done|]. split; [done|].
           rewrite E. simpl. rewrite filter_cons_True by done.
           by rewrite <- app_assoc.
      * right. exists [], m, rest. by repeat split.
    + destruct (IH m tr) as [[mp' E]|(before & x & after & -> & Hx & E)].
      * left. exists mp'. by rewrite E, filter_cons_False.
      * right. exists (m :: before), x, after.
        split; [done|]. split; [done|].
        rewrite E. simpl. by rewrite filter_cons_False.
Qed.

Lemma cancel_attempt_shape (bucket : Bucket) (remote_path : string)
    (mp : multipart) (tr : trace) :
  (∃ a mp',
     attempt_run remote_path mp a None
     ∧ cancel_attempt bucket remote_path (mp, tr)
       = Some (Ok tt, (mp', tr ++ a)))
  ∨ (∃ a mp',
       attempt_run remote_path mp a (Some mp')
       ∧ cancel_attempt bucket remote_path (mp, tr)
         = Some (Raise S3Error, (mp', tr ++ a))).
Proof.
  unfold cancel_attempt. eff_unfold. simpl.
  destruct (s3_cancel bucket (tr ++ [ESleep SLEEP_TIME]) mp).
  - destruct (s3_list bucket
      (((tr ++ [ESleep SLEEP_TIME]) ++ [ECancel mp true])
         ++ [ESleep SLEEP_TIME])) as [listed|].
    + edestruct (cancel_listed_shape bucket remote_path listed mp)
        as [[mp' E]|(before & x & after & -> & Hx & E)].
      * left. eexists _, mp'. split; [apply stragglers_cancelled|].
        rewrite E. by rewrite <- !app_assoc.
      * right. eexists _, x.
        split; [by apply (straggler_refused _ _ before x after)|].
        rewrite E. by rewrite <- !app_assoc.
    + right. eexists _, mp. split; [apply listing_refused|].
      by rewrite <- !app_assoc.
  - right. eexists _, mp. split; [apply cancel_refused|].
    by rewrite <- !app_assoc.
Qed.

Lemma cancel_upload_loop_shape (bucket : Bucket) (remote_path : string)
    (fuel attempts : nat) (mp : multipart) (tr : trace) :
  5 - attempts < fuel → attempts ≤ 5 →
  ∃ mp' ext,
    cancel_upload_loop fuel bucket remote_path attempts (mp, tr)
      = Some (Ok tt, (mp', tr ++ ext))
    ∧ cancel_runs remote_path attempts mp ext.
Proof.
  revert attempts mp tr.
  induction fuel as [|fuel IH]; intros attempts mp tr Hfuel Hle; [lia|].
  simpl. destruct (attempts <? 5) eqn:Hlt.
  - apply Nat.ltb_lt in Hlt. unfold try_except_else.
    destruct (cancel_attempt_shape bucket remote_path mp tr)
      as [(a & mp1 & Ha & ->)|(a & mp1 & Ha & ->)].
    + exists mp1, a. unfold eff_ret. split; [done|].
      by apply got_through.
    + simpl. eff_unfold. simpl.
      destruct (IH (attempts + 1) mp1 ((tr ++ a) ++ [ELog ErrorCancelling]))
        as (mp2 & ext2 & E2 & Hruns); [lia|lia|].
      exists mp2, (a ++ ELog ErrorCancelling :: ext2).
      rewrite E2. rewrite <- !app_assoc. split; [done|].
      apply (tried_again _ _ _ _ mp1); [done|done|].
      by replace (S attempts) with (attempts + 1) by lia.
  - apply Nat.ltb_ge in Hlt. assert (attempts = 5) as -> by lia.
    exists mp, []. unfold eff_ret. rewrite app_nil_r. split; [done|].
    apply gave_up.
Qed.

Lemma cancel_upload_shape (bucket : Bucket) (mp : multipart)
    (remote_path : string) (tr : trace) :
  ∃ ext,
    cancel_upload bucket mp remote_path tr = Some (Ok tt, tr ++ ext)
    ∧ cancel_runs remote_path 0 mp ext
    ∧ Forall (λ e, is_cleanup e = true) ext
    ∧ count_events is_cancel_error ext ≤ 5.
Proof.
  destruct (cancel_upload_runs bucket mp remote_path tr)
    as (ext & E & Hext & Hc).
  exists ext. split; [exact E|]. split; [|by split].
  unfold cancel_upload in E.
  destruct (cancel_upload_loop_shape bucket remote_path 6 0 mp tr)
    as (mp' & ext' & E' & Hruns); [lia|lia|].
  rewrite E' in E. injection E as E. apply app_inv_head in E.
  by subst ext'.
Qed.

(** A run of [cancel_upload] starts by sleeping and cancelling the session
    it was called for. *)
Lemma cancel_runs_first_cancel (remote_path : string) (n : nat)
    (mp : multipart) (ext : trace) :
  cancel_runs remote_path n mp ext → n < 5 →
  ∃ ok rest, ext = ESleep SLEEP_TIME :: ECancel mp ok :: rest.
Proof.
  intros Hruns Hn.
  destruct Hruns as [m|n m a _ Ha|n m a m' rest _ Ha _]; [lia|..];
    inversion Ha; subst; simpl; eauto.
Qed.



(** ** The retry policy, on a chunk that fails [M] times *)



Section Flaky.
Variables j M : nat.
Variable mp : multipart.


End Flaky.

Section FlakyUpload.
Variable compressed_pipe : string → Z → chunk_source.
Variables source destination : string.
Variable s3_ssenc : bool.
Variable bufsize : Z.
Variables j M : nat.

Hypothesis pipe_sound : cs_error (compressed_pipe source bufsize) = false.
Hypothesis j_is_a_part :
  1 ≤ j ≤ List.length (cs_chunks (compressed_pipe source bufsize)).

End FlakyUpload.




(** ** put_from_manifest *)

Lemma int_of_product_exact (bufsize : Z) :
  (Z.abs bufsize < 2 ^ 53)%Z →
  int_of_product bufsize = Some (bufsize * MBFACTOR)%Z.
Proof.
  intros Hsmall. unfold int_of_product.
  assert (round_to_double bufsize = bufsize) as ->.
  { unfold round_to_double.
    destruct (Z.leb_spec (Z.log2 (Z.abs bufsize) - 52) 0) as [|Hbig];
      [done|].
    assert (Z.log2 (Z.abs bufsize) < 53)%Z; [|lia].
    destruct (decide (Z.abs bufsize = 0)%Z) as [->|]; [done|].
    apply Z.log2_lt_pow2; lia. }
  assert (is_finite_double bufsize = true) as ->.
  { apply Z.ltb_lt.
    assert (2 ^ 53 < 2 ^ 1024)%Z by (by apply Z.pow_lt_mono_r). lia. }
  assert (is_finite_double (bufsize * MBFACTOR) = true) as ->; [|done].
  apply Z.ltb_lt. rewrite Z.abs_mul.
  change (Z.abs MBFACTOR) with (2 ^ 20)%Z.
  assert (2 ^ 53 * 2 ^ 20 < 2 ^ 1024)%Z.
  { rewrite <- Z.pow_add_r by lia. by apply Z.pow_lt_mono_r. }
  nia.
Qed.

Section OrchestratorFacts.
Variable compressed_pipe : string → Z → chunk_source.
Variable remote : nat → Bucket.
Variable s3_ssenc : bool.
Variable s3_base_path : string.

Local Abbreviation task_returns :=
  (task_returns compressed_pipe remote s3_ssenc s3_base_path).
Local Abbreviation task_raises :=
  (task_raises compressed_pipe remote s3_ssenc s3_base_path).
Local Abbreviation task_outcome :=
  (task_outcome compressed_pipe remote s3_ssenc s3_base_path).
Local Abbreviation results_of :=
  (results_of compressed_pipe remote s3_ssenc s3_base_path).
Local Abbreviation consumed :=
  (consumed compressed_pipe remote s3_ssenc s3_base_path).
Local Abbreviation interrupted :=
  (interrupted compressed_pipe remote s3_ssenc s3_base_path).
Local Abbreviation no_worker_exception :=
  (no_worker_exception compressed_pipe remote s3_ssenc s3_base_path).

(** The next result is the value the task returned, or the exception it
    raised. *)
Lemma imap_next_runs (buffer_size : Z) (k : nat) (f : string)
    (st : job_state) :
  (∃ ret,
     task_returns buffer_size k f ret
     ∧ task_outcome buffer_size k f = ret
     ∧ imap_next compressed_pipe remote s3_ssenc s3_base_path buffer_size
         k f st
       = Some (Ok ret,
               JobState (disk st) (journal st ++ [JResult f ret])))
  ∨ (∃ e,
       task_raises buffer_size k f e
       ∧ imap_next compressed_pipe remote s3_ssenc s3_base_path buffer_size
           k f st
         = Some (Raise e, st)).
Proof.
  unfold imap_next, task_returns, task_raises, task_outcome, task_run.
  destruct (upload_file_runs compressed_pipe (remote k) f
              (destination_path s3_base_path f true) s3_ssenc buffer_size [])
    as (r & ext & -> & _).
  destruct r as [ret|e]; [left; exists ret|right; exists e]; eauto.
Qed.

(** The result loop takes the results in the order of [files] until one is
    [False] or a task's exception comes out of [pool.imap]. *)
Lemma consume_results_runs (buffer_size : Z) (files : list string)
    (k : nat) (st : job_state) :
  ∃ n,
    let st' :=
      JobState (disk st)
        (journal st ++ results_of buffer_size k (take n files)) in
    (∃ exit_code,
       consume_results compressed_pipe remote s3_ssenc s3_base_path
         buffer_size k files st = Some (Ok exit_code, st')
       ∧ consumed buffer_size k files n exit_code)
    ∨ (∃ e,
         consume_results compressed_pipe remote s3_ssenc s3_base_path
           buffer_size k files st = Some (Raise e, st')
         ∧ interrupted buffer_size k files n e).
Proof.
  revert k st. induction files as [|f rest IH]; intros k st; simpl.
  - exists 0. left. exists 0. unfold eff_ret. simpl. rewrite app_nil_r.
    split; [by destruct st|]. left. repeat split. intros i f Hf.
    by rewrite lookup_nil in Hf.
  - unfold eff_bind.
    destruct (imap_next_runs buffer_size k f st)
      as [(ret & Hret & Hout & ->)|(e & He & ->)].
    + destruct ret; simpl.
      * destruct (IH (S k)
                    (JobState (disk st) (journal st ++ [JResult f true])))
          as (n & [(code & E & Hn)|(e & E & Hn)]); exists (S n).
        -- left. exists code. simpl in *. rewrite E, Hout, <- app_assoc.
           split; [done|].
           destruct Hn
             as [(-> & -> & Hall)|(-> & Hbefore & g & Hpos & Hg & Hfail)].
           ++ left. repeat split. intros [|i] g Hg; simpl in Hg.
              ** injection Hg as <-. by rewrite Nat.add_0_r.
              ** replace (k + S i) with (S k + i) by lia. by apply Hall.
           ++ right. split; [done|]. split.
              ** intros [|i] g' Hi Hg'; simpl in Hg'.
                 --- injection Hg' as <-. by rewrite Nat.add_0_r.
                 --- replace (k + S i) with (S k + i) by lia.
                     apply Hbefore; [lia|done].
              ** exists g. split; [lia|]. destruct n as [|n]; [lia|].
                 simpl in *. rewrite Nat.sub_0_r in *. split; [done|].
                 by replace (k + S n) with (S k + n) by lia.
        -- right. exists e. simpl in *. rewrite E, Hout, <- app_assoc.
           split; [done|]. destruct Hn as (Hbefore & g & Hg & Hraise).
           split.
           ++ intros [|i] g' Hi Hg'; simpl in Hg'.
              ** injection Hg' as <-. by rewrite Nat.add_0_r.
              ** replace (k + S i) with (S k + i) by lia.
                 apply Hbefore; [lia|done].
           ++ exists g. split; [done|].
              by replace (k + S n) with (S k + n) by lia.
      * exists 1. left. exists 1. unfold eff_ret. simpl.
        rewrite Hout. split; [done|]. right. split; [done|]. split.
        -- intros i g Hi. lia.
        -- exists f. simpl. rewrite Nat.add_0_r. by repeat split; [lia|..].
    + exists 0. right. exists e. simpl. rewrite app_nil_r.
      split; [by destruct st|]. split.
      * intros i g Hi. lia.
      * exists f. by rewrite Nat.add_0_r.
Qed.

Lemma remove_files_runs (files : list string) (st : job_state) :
  removable files st →
  remove_files files st
  = Some (Ok tt,
          JobState (disk st ∖ list_to_set files)
            (journal st ++ map (λ f, JRemove f true) files)).
Proof.
  revert st. induction files as [|f rest IH]; intros st [Hnodup Hdisk]; simpl.
  - unfold eff_ret. rewrite app_nil_r. destruct st as [d jl]. simpl.
    by rewrite difference_empty_L.
  - apply NoDup_cons in Hnodup as [Hf Hrest].
    apply Forall_cons in Hdisk as [Hfdisk Hdisk].
    unfold eff_bind, os_remove. rewrite decide_True by done.
    rewrite IH; simpl.
    + by rewrite <- app_assoc, difference_difference_l_L.
    + split; [done|]. simpl. apply Forall_forall. intros g Hg.
      apply elem_of_difference. split.
      * by apply (proj1 (Forall_forall _ _) Hdisk).
      * intros Hgf%elem_of_singleton. by subst g.
Qed.

(** [Pool] returns when it accepts the pool size. *)
Lemma Pool_runs (concurrency : option Z) (st : job_state) :
  pool_size_ok concurrency →
  Pool concurrency st
  = Some (Ok tt, JobState (disk st) (journal st ++ [JPool])).
Proof.
  intros Hok. unfold Pool. destruct concurrency as [n|]; [|done].
  specialize (Hok n eq_refl).
  by destruct (Z.ltb_spec n 1); [lia|].
Qed.

(** What a run of [put_from_manifest] does when the set-up gets through,
    no exception comes out of [pool.imap] and no removal can raise. *)
Lemma put_from_manifest_runs (text : string) (bufsize buffer_size : Z)
    (concurrency : option Z) (incremental_backups : bool) (st : job_state) :
  int_of_product bufsize = Some buffer_size →
  pool_size_ok concurrency →
  no_worker_exception buffer_size (splitlines text) →
  (incremental_backups = true → removable (splitlines text) st) →
  ∃ n exit_code,
    put_from_manifest compressed_pipe remote s3_ssenc s3_base_path
      (Some text) bufsize concurrency incremental_backups st
    = Some (Raise (SystemExit exit_code),
            JobState
              (if incremental_backups
               then disk st ∖ list_to_set (splitlines text)
               else disk st)
              (journal st
               ++ JPool
                  :: results_of buffer_size 0 (take n (splitlines text))
               ++ JTerminate
                  :: (if incremental_backups
                      then map (λ f, JRemove f true) (splitlines text)
                      else [])))
    ∧ consumed buffer_size 0 (splitlines text) n exit_code.
Proof.
  intros Hsize Hpool Hworkers Hremovable.
  unfold put_from_manifest, read_manifest, buffer_size_of.
  rewrite Hsize. unfold eff_bind at 1 2 3. unfold eff_ret at 1 2.
  rewrite Pool_runs by done.
  destruct (consume_results_runs buffer_size (splitlines text) 0
              (JobState (disk st) (journal st ++ [JPool])))
    as (n & [(code & E & Hn)|(e & _ & Hn)]);
    [|by destruct (Hworkers n e)].
  exists n, code. split; [|exact Hn].
  unfold eff_bind at 1. rewrite E. eff_unfold. simpl.
  destruct incremental_backups.
  - rewrite remove_files_runs; simpl.
    + by rewrite <- !app_assoc.
    + destruct (Hremovable eq_refl) as [Hnodup Hdisk]. by split.
  - by rewrite <- !app_assoc.
Qed.
Lemma all_return_no_worker_exception (buffer_size : Z)
    (files : list string) :
  all_return compressed_pipe remote s3_ssenc s3_base_path buffer_size 0
    files = true →
  no_worker_exception buffer_size files.
Proof.
  intros Hall n e (_ & f & Hf & tr & Hraise).
  revert n Hf Hraise Hall. generalize 0 as k.
  induction files as [|g rest IH]; intros k n Hf Hraise Hall;
    [by rewrite lookup_nil in Hf|].
  simpl in Hall. destruct n as [|n]; simpl in Hf.
  - injection Hf as ->. rewrite Nat.add_0_r in Hraise.
    by rewrite Hraise in Hall.
  - destruct (task_run _ _ _ _ _ k g) as [[[]]|]; try done.
    apply (IH (S k) n Hf); [|done].
    by replace (S k + n) with (k + S n) by lia.
Qed.
End OrchestratorFacts.


(** The same with a manifest as [create_upload_manifest] writes it when a
    pattern matches nothing: [os.remove] of the empty line raises, and the
    file listed after it stays on disk. *)
Lemma empty_manifest_line_stops_removal :
  summary
    (put_from_manifest one_chunk (λ _, reliable_bucket) false "base"
       (Some (lines [""; "b"])) 64 (Some 4%Z) true (JobState {[ "b" ]} []))
  = Some (Raise OSError, ["b"],
          [JPool; JResult "" true; JResult "b" true; JTerminate;
           JRemove "" false]).
Proof. vm_compute. reflexivity. Qed.

(** An exception raised in a worker comes out of [pool.imap] in the result
    loop and leaves [put_from_manifest]: in incremental mode, with both
    files on disk and listed once, nothing is removed, the pool is not
    terminated and [exit] is not reached. *)
Lemma worker_exception_leaves_put_from_manifest :
  summary
    (put_from_manifest one_chunk second_task_raises false "base"
       (Some (lines ["a"; "b"; "c"])) 64 (Some 4%Z) true
       (JobState {[ "a"; "b"; "c" ]} []))
  = Some (Raise S3Error, ["c"; "a"; "b"], [JPool; JResult "a" true]).
Proof. vm_compute. reflexivity. Qed.



(** C5, as stated, fails.  Incremental mode, a manifest that lists ["a"]
    twice, both uploads succeeding: every observed outcome is a success, and
    the run ends in the [OSError] of the second [os.remove("a")], not in
    [exit(0)]. *)
Lemma failed_removal_preempts_exit :
  summary
    (put_from_manifest one_chunk (λ _, reliable_bucket) false "base"
       (Some (lines ["a"; "a"])) 64 (Some 4%Z) true (JobState {[ "a" ]} []))
  = Some (Raise OSError, [],
          [JPool; JResult "a" true; JResult "a" true; JTerminate;
           JRemove "a" true; JRemove "a" false]).
Proof. vm_compute. reflexivity. Qed.

(** C5, amended: take a run whose manifest can be read, whose buffer size
    [int(bufsize * MBFACTOR)] and pool size are accepted, and in which no
    exception of a task comes out of [pool.imap]; outside incremental
    mode, or when no removal raises, the run ends in [exit(exit_code)].
    The tasks are run with that buffer size and their results are taken
    in manifest order; the loop stops at the first [False],
    [pool.terminate()] comes right after the last result taken, and
    [exit_code] is 0 when all the results taken are [True] (then all of
    the manifest was taken) and 1 when the last one taken is [False]. *)
Theorem exit_status_follows_observed_outcomes
    (compressed_pipe : string → Z → chunk_source) (remote : nat → Bucket)
    (s3_ssenc : bool) (s3_base_path text : string)
    (bufsize buffer_size : Z) (concurrency : option Z)
    (incremental_backups : bool) (st : job_state) :
  int_of_product bufsize = Some buffer_size →
  pool_size_ok concurrency →
  no_worker_exception compressed_pipe remote s3_ssenc s3_base_path
    buffer_size (splitlines text) →
  (incremental_backups = true → removable (splitlines text) st) →
  ∃ n exit_code st',
    put_from_manifest compressed_pipe remote s3_ssenc s3_base_path
      (Some text) bufsize concurrency incremental_backups st
    = Some (Raise (SystemExit exit_code), st')
    ∧ journal st'
      = journal st
        ++ JPool
           :: results_of compressed_pipe remote s3_ssenc s3_base_path
                buffer_size 0 (take n (splitlines text))
        ++ JTerminate
           :: (if incremental_backups
               then map (λ f, JRemove f true) (splitlines text)
               else [])
    ∧ consumed compressed_pipe remote s3_ssenc s3_base_path
        buffer_size 0 (splitlines text) n exit_code.
Proof.
  intros Hsize Hpool Hworkers Hremovable.
  destruct (put_from_manifest_runs compressed_pipe remote s3_ssenc
              s3_base_path text bufsize buffer_size concurrency
              incremental_backups st Hsize Hpool Hworkers Hremovable)
    as (n & code & E & Hn).
  eexists n, code, _. split; [exact E|]. by split.
Qed.

Lemma exit_status_follows_observed_outcomes_witness :
  ∃ n exit_code st',
    put_from_manifest two_chunks first_task_fails false "base"
      (Some (lines ["a"; "b"])) 64 (Some 4%Z) false
      (JobState {[ "a"; "b" ]} [])
    = Some (Raise (SystemExit exit_code), st')
    ∧ journal st'
      = [] ++ JPool
              :: results_of two_chunks first_task_fails false "base"
                   67108864 0 (take n (splitlines (lines ["a"; "b"])))
              ++ [JTerminate]
    ∧ consumed two_chunks first_task_fails false "base" 67108864 0
        (splitlines (lines ["a"; "b"])) n exit_code.
Proof.
  pose proof (exit_status_follows_observed_outcomes two_chunks
                first_task_fails false "base" (lines ["a"; "b"]) 64
                67108864 (Some 4%Z) false (JobState {[ "a"; "b" ]} []))
    as H.
  cbn [journal] in H. apply H.
  - reflexivity.
  - intros n [= <-]. lia.
  - apply all_return_no_worker_exception. vm_compute. reflexivity.
  - intros Hincr. discriminate Hincr.
Defined.

(** * Further properties *)

(** ** What a run of upload_file amounts to *)

Lemma count_parts_acked_none (p : event → bool) (mp : multipart) (i : nat)
    (sent : list chunk) :
  (∀ m fp index bound ok, p (EUploadPart m fp index bound ok) = false) →
  count_events p (parts_acked mp i sent) = 0.
Proof.
  intros Hp. revert i. induction sent as [|c sent IH]; intros i; simpl;
    [done|].
  by rewrite Hp, IH.
Qed.

Lemma count_stream_events_none (p : event → bool) (mp : multipart)
    (i : nat) (sent : list chunk) (refused : option chunk) :
  (∀ m fp index bound ok, p (EUploadPart m fp index bound ok) = false) →
  count_events p (stream_events mp i sent refused) = 0.
Proof.
  intros Hp. unfold stream_events.
  rewrite count_events_app, count_parts_acked_none by done.
  destruct refused; simpl; [by rewrite Hp|done].
Qed.

Lemma count_parts_parts_acked (mp : multipart) (i : nat)
    (sent : list chunk) :
  count_events is_part (parts_acked mp i sent) = List.length sent.
Proof.
  revert i. induction sent as [|c sent IH]; intros i; simpl; [done|].
  by rewrite IH.
Qed.

Lemma count_parts_stream_events (mp : multipart) (i : nat)
    (sent : list chunk) (refused : option chunk) :
  count_events is_part (stream_events mp i sent refused)
  = List.length sent + (if refused is Some _ then 1 else 0).
Proof.
  unfold stream_events. rewrite count_events_app, count_parts_parts_acked.
  by destruct refused.
Qed.

Lemma initiates_for_stream_events (key : string) (enc : bool)
    (mp : multipart) (i : nat) (sent : list chunk)
    (refused : option chunk) :
  Forall (initiates_for key enc) (stream_events mp i sent refused).
Proof.
  unfold stream_events. apply Forall_app. split.
  - revert i. induction sent as [|c sent IH]; intros i; simpl;
      by constructor.
  - destruct refused; by repeat constructor.
Qed.

Lemma count_events_quiet (p : event → bool) (tr : trace) :
  (∀ e, is_quiet e = true → p e = false) →
  Forall (λ e, is_quiet e = true) tr → count_events p tr = 0.
Proof.
  intros Hp Htr. apply count_events_none.
  eapply Forall_impl; [exact Htr|]. auto.
Qed.

Lemma initiates_for_quiet (key : string) (enc : bool) (tr : trace) :
  Forall (λ e, is_quiet e = true) tr → Forall (initiates_for key enc) tr.
Proof.
  intros Htr. eapply Forall_impl; [exact Htr|]. intros e He. by destruct e.
Qed.

Lemma cleanup_quiet (tr : trace) :
  Forall (λ e, is_cleanup e = true) tr → Forall (λ e, is_quiet e = true) tr.
Proof.
  intros Htr. eapply Forall_impl; [exact Htr|]. intros e He. by destruct e.
Qed.

Lemma head_of_length (file sent : list chunk) (refused : option chunk) :
  head_of file sent refused →
  List.length sent + (if refused is Some _ then 1 else 0)
  ≤ List.length file.
Proof.
  destruct refused as [c|]; simpl.
  - intros [rest ->]. rewrite length_app. simpl. lia.
  - intros ->. lia.
Qed.

Section Account.
Variables source destination : string.
Variable s3_ssenc : bool.
Variable file : list chunk.

Local Abbreviation accounted :=
  (accounted destination s3_ssenc source file).

Lemma accounted_no_session (k : nat) (r1 r2 : log_record) :
  accounted (S k) (Ok false)
    [EInitiate destination s3_ssenc None; ELog r1; ELog r2].
Proof.
  repeat split; simpl; try lia. by repeat constructor.
Qed.

Lemma accounted_success (k i : nat) :
  accounted (S k) (Ok true)
    (session_opened source destination s3_ssenc i
       ++ stream_events (MultiPart i destination) 0 file None
       ++ [EComplete (MultiPart i destination) true]).
Proof.
  split; [|split; [|split; [|split]]]; simpl.
  - rewrite count_events_app, count_stream_events_none by done. simpl. lia.
  - rewrite count_events_app, count_parts_stream_events. simpl. lia.
  - rewrite count_events_app, count_stream_events_none by done. simpl. lia.
  - repeat (constructor; [done|]). apply Forall_app. split.
    + apply initiates_for_stream_events.
    + by repeat constructor.
  - exists [], i. unfold stream_events. by rewrite app_nil_r.
Qed.

(** A round that gives up: after the stream, maybe a refused complete, then
    logs, maybe the listing of the parts, and the calls of
    [cancel_upload]. *)
Lemma accounted_give_up (k i : nat) (sent : list chunk)
    (refused : option chunk) (complete_refused : bool) (quiet : trace) :
  head_of file sent refused →
  Forall (λ e, is_quiet e = true) quiet →
  accounted (S k) (Ok false)
    (session_opened source destination s3_ssenc i
       ++ stream_events (MultiPart i destination) 0 sent refused
       ++ (if complete_refused
           then [EComplete (MultiPart i destination) false]
           else [])
       ++ quiet).
Proof.
  intros Hn%head_of_length Hquiet.
  split; [|split; [|split; [|split]]]; simpl.
  - rewrite !count_events_app, count_stream_events_none by done.
    rewrite (count_events_quiet _ quiet) by (done || by intros []).
    destruct complete_refused; simpl; lia.
  - rewrite !count_events_app, count_parts_stream_events.
    rewrite (count_events_quiet _ quiet) by (done || by intros []).
    destruct complete_refused; simpl; lia.
  - rewrite !count_events_app, count_stream_events_none by done.
    rewrite (count_events_quiet _ quiet) by (done || by intros []).
    destruct complete_refused; simpl; lia.
  - repeat (constructor; [done|]). apply Forall_app. split.
    + apply initiates_for_stream_events.
    + apply Forall_app.
      split; [destruct complete_refused; by repeat constructor|].
      by apply initiates_for_quiet.
  - rewrite !count_events_app, count_stream_events_none by done.
    rewrite (count_events_quiet _ quiet) by (done || by intros []).
    by destruct complete_refused.
Qed.

(** A round that is left by the exception of [mp.to_xml()]. *)
Lemma accounted_to_xml_raises (k i : nat) :
  accounted (S k) (Raise S3Error)
    (session_opened source destination s3_ssenc i
       ++ stream_events (MultiPart i destination) 0 file None
       ++ [EComplete (MultiPart i destination) false;
           ELog (ErrorCompleting source destination);
           ELog (ErrorExcMessage S3Error);
           EToXml (MultiPart i destination) false]).
Proof.
  split; [|split; [|split; [|split]]]; simpl.
  - rewrite count_events_app, count_stream_events_none by done. simpl. lia.
  - rewrite count_events_app, count_parts_stream_events. simpl. lia.
  - rewrite count_events_app, count_stream_events_none by done. simpl. lia.
  - repeat (constructor; [done|]). apply Forall_app. split.
    + apply initiates_for_stream_events.
    + by repeat constructor.
  - split; [done|].
    rewrite !count_events_app, !count_stream_events_none by done.
    split; [done|]. split; [done|].
    exists (session_opened source destination s3_ssenc i
            ++ stream_events (MultiPart i destination) 0 file None),
      (MultiPart i destination).
    by rewrite <- !app_assoc.
Qed.

(** A round that is followed by others. *)
Lemma accounted_retry (k i : nat) (sent : list chunk)
    (refused : option chunk) (r : result bool) (r1 r2 : log_record)
    (t : nat) (ext : trace) :
  head_of file sent refused →
  accounted k r ext →
  accounted (S k) r
    (session_opened source destination s3_ssenc i
       ++ stream_events (MultiPart i destination) 0 sent refused
       ++ ELog r1 :: ELog r2 :: ESleep t :: ext).
Proof.
  intros Hn%head_of_length (Hi & Hp & Hc & Hfor & Hb).
  split; [|split; [|split; [|split]]]; simpl.
  - rewrite !count_events_app, count_stream_events_none by done. simpl. lia.
  - rewrite !count_events_app, count_parts_stream_events. simpl. lia.
  - rewrite !count_events_app, count_stream_events_none by done. simpl. lia.
  - repeat (constructor; [done|]). apply Forall_app. split.
    + apply initiates_for_stream_events.
    + by repeat (constructor; [done|]).
  - destruct r as [[]|e]; simpl in *.
    + destruct Hb as (pre & i' & -> & Hpre & Hcancel).
      exists (session_opened source destination s3_ssenc i
                ++ stream_events (MultiPart i destination) 0 sent refused
                ++ ELog r1 :: ELog r2 :: ESleep t :: pre), i'.
      split; [|split]; simpl.
      * by rewrite <- !app_assoc.
      * rewrite !count_events_app, count_stream_events_none by done.
        simpl. lia.
      * rewrite !count_events_app, count_stream_events_none by done.
        simpl. lia.
    + rewrite !count_events_app, count_stream_events_none by done.
      simpl. lia.
    + destruct Hb as (-> & Hacc & Hcancel & pre & mp & ->).
      split; [done|].
      rewrite !(count_events_app _ (stream_events _ _ _ _)),
        !count_stream_events_none by done.
      simpl. split; [lia|]. split; [lia|].
      exists (session_opened source destination s3_ssenc i
                ++ stream_events (MultiPart i destination) 0 sent refused
                ++ ELog r1 :: ELog r2 :: ESleep t :: pre), mp.
      simpl. by rewrite <- !app_assoc.
Qed.
End Account.

Section UploadAccount.
Variable compressed_pipe : string → Z → chunk_source.
Variable bucket : Bucket.
Variables source destination : string.
Variable s3_ssenc : bool.
Variable bufsize : Z.

Lemma upload_file_loop_accounted (fuel retry_count : nat) (tr : trace) :
  retry_count ≤ MAX_RETRY_COUNT →
  MAX_RETRY_COUNT - retry_count < fuel →
  ∃ r ext,
    upload_file_loop compressed_pipe fuel bucket source destination
      s3_ssenc bufsize retry_count tr = Some (r, tr ++ ext)
    ∧ accounted destination s3_ssenc source
        (cs_chunks (compressed_pipe source bufsize))
        (MAX_RETRY_COUNT + 1 - retry_count) r ext.
Proof.
  revert retry_count tr.
  induction fuel as [|fuel IH]; intros rc tr Hrc Hfuel; [lia|].
  replace (MAX_RETRY_COUNT + 1 - rc) with (S (MAX_RETRY_COUNT - rc)) by lia.
  simpl. eff_unfold.
  destruct (s3_initiate bucket tr destination s3_ssenc) as [i|]; simpl.
  2:{ eexists (Ok false), [_; _; _]. rewrite <- !app_assoc. simpl.
      split; [done|]. apply accounted_no_session. }
  set (mp := MultiPart i destination).
  set (tr1 := (tr ++ _) ++ _).
  destruct (upload_stream_runs bucket mp
              (compressed_pipe source bufsize) tr1)
    as (r & sent & refused & E & Hr & Hhead & Hshape).
  rewrite E.
  set (k := MAX_RETRY_COUNT - rc).
  set (file := cs_chunks (compressed_pipe source bufsize)) in *.
  assert (Hcut : ∀ (x : result bool) tail tr',
    tr' = (tr1 ++ stream_events mp 0 sent refused) ++ tail →
    accounted destination s3_ssenc source file (S k) x
      (session_opened source destination s3_ssenc i
         ++ stream_events mp 0 sent refused ++ tail) →
    ∃ (x' : result bool) ext,
      Some (x, tr') = Some (x', tr ++ ext)
      ∧ accounted destination s3_ssenc source file (S k) x' ext).
  { intros x tail tr' -> Hacc. eexists x, _. split; [|exact Hacc].
    subst tr1. by rewrite <- !app_assoc. }
  destruct r as [[]|e].
  - destruct refused as [c|]; [done|]. simpl in Hhead. subst sent.
    destruct (s3_complete bucket _ mp).
    + eapply (Hcut (Ok true) [EComplete mp true]); [done|].
      apply accounted_success.
    + simpl. destruct (s3_to_xml bucket _ mp); simpl.
      * edestruct (cancel_upload_runs bucket mp destination)
          as (ext & -> & Hext & _).
        eapply (Hcut (Ok false)
                  ([EComplete mp false]
                   ++ ELog _ :: ELog _ :: EToXml _ _ :: ELog _ :: ext)).
        -- by rewrite <- !app_assoc.
        -- apply (accounted_give_up _ _ _ _ _ _ _ None true); [done|].
           repeat (constructor; [done|]). by apply cleanup_quiet.
      * eapply (Hcut (Raise S3Error) [_; _; _; _]).
        -- by rewrite <- !app_assoc.
        -- apply accounted_to_xml_raises.
  - simpl in Hr. rewrite Hr.
    destruct (MAX_RETRY_COUNT <=? rc) eqn:Hmax.
    + edestruct (cancel_upload_runs bucket mp destination)
        as (ext & -> & Hext & _).
      eapply (Hcut (Ok false) ([] ++ ELog _ :: ELog _ :: ELog _ :: ext)).
      * by rewrite <- !app_assoc.
      * apply (accounted_give_up _ _ _ _ _ _ _ refused false); [done|].
        repeat (constructor; [done|]). by apply cleanup_quiet.
    + apply Nat.leb_gt in Hmax.
      edestruct (IH (rc + 1)) as (x & ext & -> & Hext); [lia|lia|].
      eapply (Hcut x (ELog _ :: ELog _ :: ESleep _ :: ext)).
      * by rewrite <- !app_assoc.
      * apply accounted_retry; [done|].
        by replace k with (MAX_RETRY_COUNT + 1 - (rc + 1)) by (subst k; lia).
Qed.
End UploadAccount.

(** X1: the result of [upload_file] tells whether the file is in the
    store, whatever the store answers.  When it returns [True], the run
    ends with one session that was sent the chunks of the file, each as
    the payload of its part, as parts 1, 2, ... in order, all
    acknowledged, and then completed; before that session no complete and
    no cancel call was made.  When it returns [False], no complete call
    was accepted.  When it raises, the exception is the one of
    [mp.to_xml()] after a refused complete: no complete call was accepted
    and no cancel call was made. *)
Theorem verdict_tells_whether_file_was_completed
    (compressed_pipe : string → Z → chunk_source) (bucket : Bucket)
    (source destination : string) (s3_ssenc : bool) (bufsize : Z) :
  ∃ r tr,
    upload_file compressed_pipe bucket source destination s3_ssenc bufsize []
      = Some (r, tr)
    ∧ verdict destination s3_ssenc source
        (cs_chunks (compressed_pipe source bufsize)) r tr.
Proof.
  destruct (upload_file_loop_accounted compressed_pipe bucket source
              destination s3_ssenc bufsize (S MAX_RETRY_COUNT) 0 [])
    as (r & ext & E & _ & _ & _ & _ & Hb); [lia|lia|].
  by exists r, ext.
Qed.

(** X2: the work of one task is bounded.  Whatever the store answers, and
    whether [upload_file] returns or raises, it initiates at most
    [MAX_RETRY_COUNT + 1] sessions, all of them for the destination key
    and with the encryption flag it was given, uploads at most
    [MAX_RETRY_COUNT + 1] times the chunks of the file, and calls complete
    at most once. *)
Theorem upload_file_work_is_bounded
    (compressed_pipe : string → Z → chunk_source) (bucket : Bucket)
    (source destination : string) (s3_ssenc : bool) (bufsize : Z) :
  ∃ r tr,
    upload_file compressed_pipe bucket source destination s3_ssenc bufsize []
      = Some (r, tr)
    ∧ count_events is_initiate_call tr ≤ MAX_RETRY_COUNT + 1
    ∧ count_events is_part tr
      ≤ (MAX_RETRY_COUNT + 1)
        * List.length (cs_chunks (compressed_pipe source bufsize))
    ∧ count_events is_complete_call tr ≤ 1
    ∧ Forall (initiates_for destination s3_ssenc) tr.
Proof.
  destruct (upload_file_loop_accounted compressed_pipe bucket source
              destination s3_ssenc bufsize (S MAX_RETRY_COUNT) 0 [])
    as (r & ext & E & Hi & Hp & Hc & Hfor & _); [lia|lia|].
  exists r, ext. by rewrite Nat.sub_0_r in *.
Qed.

(** X12: when every chunk has been acknowledged, [complete_upload]
    raises and the listing of the parts that [mp.to_xml()] asks for is
    answered, the task logs the error and the parts, runs [cancel_upload]
    on the session, whose first call after the sleep is the cancel of
    that session, and returns [False]; complete is called once and nothing
    is uploaded or initiated again. *)
Theorem completion_failure_cancels
    (compressed_pipe : string → Z → chunk_source) (bucket : Bucket)
    (source destination : string) (s3_ssenc : bool) (bufsize : Z)
    (fuel retry_count : nat) (tr tr2 : trace) (i : nat) :
  s3_initiate bucket tr destination s3_ssenc = Some i →
  upload_stream bucket (MultiPart i destination)
    (compressed_pipe source bufsize)
    (tr ++ session_opened source destination s3_ssenc i)
    = Some (Ok tt, tr2) →
  s3_complete bucket tr2 (MultiPart i destination) = false →
  s3_to_xml bucket
    (tr2 ++ [EComplete (MultiPart i destination) false;
             ELog (ErrorCompleting source destination);
             ELog (ErrorExcMessage S3Error)])
    (MultiPart i destination) = true →
  ∃ (ok : bool) (rest : trace),
    let failed :=
      tr2 ++ [EComplete (MultiPart i destination) false;
              ELog (ErrorCompleting source destination);
              ELog (ErrorExcMessage S3Error);
              EToXml (MultiPart i destination) true;
              ELog (ErrorMpXml (MultiPart i destination))] in
    let ext :=
      ESleep SLEEP_TIME :: ECancel (MultiPart i destination) ok :: rest in
    tr2 = (tr ++ session_opened source destination s3_ssenc i)
          ++ parts_acked (MultiPart i destination) 0
               (cs_chunks (compressed_pipe source bufsize))
    ∧ cancel_upload bucket (MultiPart i destination) destination failed
      = Some (Ok tt, failed ++ ext)
    ∧ upload_file_loop compressed_pipe (S fuel) bucket source destination
        s3_ssenc bufsize retry_count tr = Some (Ok false, failed ++ ext)
    ∧ cancel_runs destination 0 (MultiPart i destination) ext
    ∧ Forall (λ e, is_cleanup e = true) ext.
Proof.
  intros Hinit Hstream Hcomplete Hxml.
  set (mp := MultiPart i destination) in *.
  destruct (upload_file_loop_complete_refused compressed_pipe bucket source
              destination s3_ssenc bufsize fuel retry_count tr tr2 i
              Hinit Hstream Hcomplete) as [Htr2 E].
  fold mp in E. rewrite Hxml in E.
  edestruct (cancel_upload_shape bucket mp destination)
    as (ext & Ec & Hruns & Hext & _).
  rewrite <- app_assoc in E. simpl in E. rewrite Ec in E.
  destruct (cancel_runs_first_cancel destination 0 mp ext Hruns)
    as (ok & rest & ->); [lia|].
  exists ok, rest. cbv zeta. by repeat split.
Qed.

Lemma completion_failure_cancels_witness :
  ∃ (ok : bool) (rest : trace),
    let mp := MultiPart 0 "base/f.lzo" in
    let failed :=
      [EInitiate "base/f.lzo" false (Some 0);
       ELog (InfoInitialized "f" "base/f.lzo");
       EUploadPart mp "c1" 1 None true;
       EComplete mp false;
       ELog (ErrorCompleting "f" "base/f.lzo");
       ELog (ErrorExcMessage S3Error);
       EToXml mp true;
       ELog (ErrorMpXml mp)] in
    upload_file_loop one_chunk 1 no_complete_bucket "f" "base/f.lzo" false 64
      0 []
    = Some (Ok false, failed ++ ESleep SLEEP_TIME :: ECancel mp ok :: rest)
    ∧ cancel_runs "base/f.lzo" 0 mp
        (ESleep SLEEP_TIME :: ECancel mp ok :: rest).
Proof.
  destruct (completion_failure_cancels one_chunk no_complete_bucket "f"
              "base/f.lzo" false 64 0 0 []
              [EInitiate "base/f.lzo" false (Some 0);
               ELog (InfoInitialized "f" "base/f.lzo");
               EUploadPart (MultiPart 0 "base/f.lzo") "c1" 1 None true] 0)
    as (ok & rest & _ & _ & E & Hruns & _); [reflexivity..|].
  exists ok, rest. split; [exact E|exact Hruns].
Defined.

(** ** What cancel_upload may cancel *)

Section CancelWithin.
Variable bucket : Bucket.
Variable mp0 : multipart.
Variable remote_path : string.

Lemma cancel_listed_within (listed : list multipart) (mp : multipart)
    (tr : trace) :
  ∃ r mp' ext,
    cancel_listed bucket remote_path listed (mp, tr)
      = Some (r, (mp', tr ++ ext))
    ∧ Forall (cancels_within mp0 remote_path) ext
    ∧ match r with
      | Ok _ => True
      | Raise e => is_Exception e = true ∧ key_name mp' = remote_path
      end.
Proof.
  revert mp tr. induction listed as [|m rest IH]; intros mp tr; simpl.
  - exists (Ok tt), mp, []. by rewrite app_nil_r.
  - eff_unfold. simpl. destruct (decide (key_name m = remote_path)).
    + destruct (s3_cancel bucket tr m).
      * destruct (IH m (tr ++ [ECancel m true]))
          as (r & mp' & ext & E & Hext & Hr).
        exists r, mp', (ECancel m true :: ext). rewrite E, <- app_assoc.
        split; [done|]. split; [|done]. constructor; [by right|done].
      * exists (Raise S3Error), m, [ECancel m false].
        split; [done|]. split; [|done]. constructor; [by right|done].
    + destruct (IH m tr) as (r & mp' & ext & E & Hext & Hr).
      exists r, mp', ext. by rewrite E.
Qed.

Lemma cancel_attempt_within (mp : multipart) (tr : trace) :
  mp = mp0 ∨ key_name mp = remote_path →
  ∃ r mp' ext,
    cancel_attempt bucket remote_path (mp, tr) = Some (r, (mp', tr ++ ext))
    ∧ Forall (cancels_within mp0 remote_path) ext
    ∧ match r with
      | Ok _ => True
      | Raise e =>
          is_Exception e = true ∧ (mp' = mp0 ∨ key_name mp' = remote_path)
      end.
Proof.
  intros Hmp. unfold cancel_attempt. eff_unfold. simpl.
  destruct (s3_cancel bucket (tr ++ [ESleep SLEEP_TIME]) mp).
  - destruct (s3_list bucket
      (((tr ++ [ESleep SLEEP_TIME]) ++ [ECancel mp true])
         ++ [ESleep SLEEP_TIME])) as [listed|].
    + edestruct (cancel_listed_within listed mp)
        as (r & mp' & ext & E & Hext & Hr).
      exists r, mp',
        ([ESleep SLEEP_TIME; ECancel mp true; ESleep SLEEP_TIME;
          EList (Some listed)] ++ ext).
      rewrite E, <- !app_assoc. simpl. split; [done|]. split.
      * by repeat (constructor; [done|]).
      * destruct r as [|e]; [done|]. destruct Hr as [He Hkey].
        split; [done|by right].
    + exists (Raise S3Error), mp,
        [ESleep SLEEP_TIME; ECancel mp true; ESleep SLEEP_TIME; EList None].
      rewrite <- !app_assoc. simpl. split; [done|]. split; [|done].
      by repeat (constructor; [done|]).
  - exists (Raise S3Error), mp, [ESleep SLEEP_TIME; ECancel mp false].
    rewrite <- !app_assoc. simpl. split; [done|]. split; [|done].
    by repeat (constructor; [done|]).
Qed.

Lemma cancel_upload_loop_within (fuel attempts : nat) (mp : multipart)
    (tr : trace) :
  mp = mp0 ∨ key_name mp = remote_path →
  5 - attempts < fuel →
  ∃ mp' ext,
    cancel_upload_loop fuel bucket remote_path attempts (mp, tr)
      = Some (Ok tt, (mp', tr ++ ext))
    ∧ Forall (cancels_within mp0 remote_path) ext.
Proof.
  revert attempts mp tr.
  induction fuel as [|fuel IH]; intros attempts mp tr Hmp Hfuel; [lia|].
  simpl. destruct (attempts <? 5) eqn:Hlt.
  - apply Nat.ltb_lt in Hlt.
    destruct (cancel_attempt_within mp tr Hmp)
      as (r & mp1 & ext1 & E & Hext1 & Hr).
    unfold try_except_else. rewrite E. destruct r as [[]|e].
    + by exists mp1, ext1.
    + destruct Hr as [-> Hmp1]. eff_unfold. simpl.
      destruct (IH (attempts + 1) mp1
                  ((tr ++ ext1) ++ [ELog ErrorCancelling]) Hmp1)
        as (mp2 & ext2 & E2 & Hext2); [lia|].
      exists mp2, (ext1 ++ [ELog ErrorCancelling] ++ ext2).
      rewrite E2, <- !app_assoc. split; [done|].
      apply Forall_app. split; [done|]. by constructor.
  - exists mp, []. unfold eff_ret. by rewrite app_nil_r.
Qed.
End CancelWithin.

(** X3: [cancel_upload] keeps to the key it was given.  Every cancel call
    it makes, in any attempt, is on the session passed in or on a session
    whose key is [remote_path]; uploads in progress for other keys of the
    bucket are listed but never cancelled. *)
Theorem cancel_upload_keeps_to_its_key (bucket : Bucket) (mp : multipart)
    (remote_path : string) (tr : trace) :
  ∃ ext,
    cancel_upload bucket mp remote_path tr = Some (Ok tt, tr ++ ext)
    ∧ Forall (cancels_within mp remote_path) ext.
Proof.
  unfold cancel_upload.
  destruct (cancel_upload_loop_within bucket mp remote_path 6 0 mp tr)
    as (mp' & ext & E & Hext); [by left|lia|].
  exists ext. by rewrite E.
Qed.

(** An attempt starts by sleeping and cancelling whatever [mp] is bound
    to. *)
Lemma cancel_attempt_first_cancel (bucket : Bucket) (remote_path : string)
    (mp : multipart) (tr : trace) :
  ∃ r mp' (ok : bool) ext,
    cancel_attempt bucket remote_path (mp, tr)
      = Some (r, (mp', tr ++ ESleep SLEEP_TIME :: ECancel mp ok :: ext))
    ∧ catchable r.
Proof.
  unfold cancel_attempt. eff_unfold. simpl.
  destruct (s3_cancel bucket (tr ++ [ESleep SLEEP_TIME]) mp).
  - destruct (s3_list bucket
      (((tr ++ [ESleep SLEEP_TIME]) ++ [ECancel mp true])
         ++ [ESleep SLEEP_TIME])) as [listed|].
    + edestruct (cancel_listed_runs bucket remote_path listed mp)
        as (r & mp' & ext & E & Hr & _).
      exists r, mp', true, ([ESleep SLEEP_TIME; EList (Some listed)] ++ ext).
      rewrite E, <- !app_assoc. by simpl.
    + exists (Raise S3Error), mp, true, [ESleep SLEEP_TIME; EList None].
      by rewrite <- !app_assoc.
  - exists (Raise S3Error), mp, false, []. by rewrite <- !app_assoc.
Qed.

Lemma cancel_upload_loop_first_cancel (bucket : Bucket)
    (remote_path : string) (fuel attempts : nat) (mp : multipart)
    (tr : trace) :
  attempts < 5 → 5 - attempts < fuel →
  ∃ mp' (ok : bool) ext,
    cancel_upload_loop fuel bucket remote_path attempts (mp, tr)
    = Some (Ok tt, (mp', tr ++ ESleep SLEEP_TIME :: ECancel mp ok :: ext)).
Proof.
  intros Hlt Hfuel. destruct fuel as [|fuel]; [lia|]. simpl.
  apply Nat.ltb_lt in Hlt as Hltb. rewrite Hltb.
  destruct (cancel_attempt_first_cancel bucket remote_path mp tr)
    as (r & mp1 & ok & ext1 & E & Hr).
  unfold try_except_else. rewrite E. destruct r as [[]|e].
  - by exists mp1, ok, ext1.
  - simpl in Hr. rewrite Hr. eff_unfold. simpl.
    edestruct (cancel_upload_loop_runs bucket remote_path fuel (attempts + 1)
                 mp1) as (mp2 & ext2 & E2 & _); [lia|].
    rewrite E2. exists mp2, ok, (ext1 ++ [ELog ErrorCancelling] ++ ext2).
    by rewrite <- !app_assoc.
Qed.

(** Sessions of other keys are passed over. *)
Lemma cancel_listed_skips (bucket : Bucket) (remote_path : string)
    (skipped : list multipart) (m : multipart) (rest : list multipart)
    (mp : multipart) (tr : trace) :
  Forall (λ x, key_name x ≠ remote_path) skipped →
  cancel_listed bucket remote_path (skipped ++ m :: rest) (mp, tr)
  = cancel_listed bucket remote_path (m :: rest) (mp, tr).
Proof.
  intros Hskipped. revert mp.
  induction Hskipped as [|x skipped Hx _ IH]; intros mp; [done|].
  simpl. eff_unfold. simpl. rewrite decide_False by done.
  by rewrite (IH x).
Qed.

(** X4: the loop over the listing rebinds [mp].  When the first attempt
    cancels the session, lists the uploads in progress, and the cancel of
    the first listed session of the key, [m], raises, the next attempt does
    not go back to the session [cancel_upload] was called for: after the
    error log and the sleep, its cancel call is on [m]. *)
Theorem straggler_replaces_session_in_retry (bucket : Bucket)
    (mp m : multipart) (remote_path : string) (tr : trace)
    (skipped rest : list multipart) :
  Forall (λ x, key_name x ≠ remote_path) skipped →
  key_name m = remote_path →
  s3_cancel bucket (tr ++ [ESleep SLEEP_TIME]) mp = true →
  s3_list bucket
    (tr ++ [ESleep SLEEP_TIME; ECancel mp true; ESleep SLEEP_TIME])
    = Some (skipped ++ m :: rest) →
  s3_cancel bucket
    (tr ++ [ESleep SLEEP_TIME; ECancel mp true; ESleep SLEEP_TIME;
            EList (Some (skipped ++ m :: rest))]) m = false →
  ∃ (ok : bool) ext,
    cancel_upload bucket mp remote_path tr
    = Some (Ok tt,
            tr ++ [ESleep SLEEP_TIME; ECancel mp true; ESleep SLEEP_TIME;
                   EList (Some (skipped ++ m :: rest)); ECancel m false;
                   ELog ErrorCancelling; ESleep SLEEP_TIME; ECancel m ok]
               ++ ext).
Proof.
  intros Hskipped Hkey Hcancel Hlist Hrefused.
  assert (Hattempt :
    cancel_attempt bucket remote_path (mp, tr)
    = Some (Raise S3Error,
            (m, tr ++ [ESleep SLEEP_TIME; ECancel mp true; ESleep SLEEP_TIME;
                       EList (Some (skipped ++ m :: rest));
                       ECancel m false]))).
  { unfold cancel_attempt. eff_unfold. simpl. rewrite Hcancel.
    rewrite <- !app_assoc. simpl. rewrite Hlist.
    rewrite cancel_listed_skips by done. simpl.
    eff_unfold. simpl. rewrite decide_True by done.
    rewrite <- !app_assoc. simpl. by rewrite Hrefused. }
  edestruct (cancel_upload_loop_first_cancel bucket remote_path 5 1 m)
    as (mp' & ok & ext & E); [lia|lia|].
  exists ok, ext. unfold cancel_upload.
  change (cancel_upload_loop 6 bucket remote_path 0 (mp, tr))
    with (try_except_else (cancel_attempt bucket remote_path)
            (λ _, lift (log ErrorCancelling) ;;;
                  cancel_upload_loop 5 bucket remote_path 1)
            (λ _, eff_ret tt) (mp, tr)).
  unfold try_except_else. rewrite Hattempt.
  cbn [is_Exception]. unfold eff_bind, lift, log, emit.
  rewrite E. by rewrite <- !app_assoc.
Qed.

Lemma straggler_replaces_session_in_retry_witness :
  ∃ (ok : bool) ext,
    cancel_upload stubborn_straggler (MultiPart 0 "k") "k" []
    = Some (Ok tt,
            [] ++ [ESleep SLEEP_TIME; ECancel (MultiPart 0 "k") true;
                   ESleep SLEEP_TIME;
                   EList
                     (Some ([MultiPart 7 "other"] ++ MultiPart 1 "k" :: []));
                   ECancel (MultiPart 1 "k") false;
                   ELog ErrorCancelling; ESleep SLEEP_TIME;
                   ECancel (MultiPart 1 "k") ok]
               ++ ext).
Proof.
  apply (straggler_replaces_session_in_retry stubborn_straggler
           (MultiPart 0 "k") (MultiPart 1 "k") "k" []
           [MultiPart 7 "other"] []).
  - by repeat constructor.
  - reflexivity.
  - reflexivity.
  - reflexivity.
  - reflexivity.
Defined.

(** ** What put_from_manifest may remove *)

Lemma remove_files_within (files : list string) (st : job_state) :
  ∃ r st',
    remove_files files st = Some (r, st')
    ∧ (r = Ok tt ∨ r = Raise OSError)
    ∧ disk st' ⊆ disk st
    ∧ ∀ f, f ∈ disk st → f ∉ disk st' → f ∈ files.
Proof.
  revert st. induction files as [|f rest IH]; intros st; simpl.
  - exists (Ok tt), st. split; [done|]. split; [by left|].
    split; [done|]. intros f Hin Hout. by destruct Hout.
  - unfold eff_bind, os_remove. destruct (decide (f ∈ disk st)) as [Hf|Hf].
    + destruct (IH (JobState (disk st ∖ {[ f ]})
                      (journal st ++ [JRemove f true])))
        as (r & st' & -> & Hr & Hsub & Hlisted).
      exists r, st'. split; [done|]. split; [done|]. simpl in *. split.
      * intros g Hg. by apply Hsub, elem_of_difference in Hg as [Hg _].
      * intros g Hin Hout. destruct (decide (g = f)) as [->|Hne]; [by left|].
        right. apply Hlisted; [|done].
        apply elem_of_difference. split; [done|].
        by intros ?%elem_of_singleton.
    + eexists (Raise OSError), _. split; [done|]. split; [by right|].
      simpl. split; [done|]. intros g Hin Hout. by destruct Hout.
Qed.

(** X5: how a run of [put_from_manifest] can end, and what it may remove.
    It ends in the [IOError] of a manifest that cannot be opened, the
    [OverflowError] of a buffer size that does not convert or the
    [ValueError] of a pool size below 1, with nothing done yet; in the
    exception of a task, which comes out of [pool.imap] after the results
    of the tasks before it: then nothing is removed and the pool is not
    terminated; in [exit] with code 0 or 1; or, in incremental mode only,
    in the [OSError] of a removal.  In every case the disk only loses
    files, and only files that the manifest lists and only in incremental
    mode. *)
Theorem put_from_manifest_removes_listed_files_only
    (compressed_pipe : string → Z → chunk_source) (remote : nat → Bucket)
    (s3_ssenc : bool) (s3_base_path : string) (manifest : option string)
    (bufsize : Z) (concurrency : option Z) (incremental_backups : bool)
    (st : job_state) :
  ∃ e st',
    put_from_manifest compressed_pipe remote s3_ssenc s3_base_path manifest
      bufsize concurrency incremental_backups st = Some (Raise e, st')
    ∧ ((manifest = None ∧ e = IOError ∧ st' = st)
       ∨ (int_of_product bufsize = None ∧ e = OverflowError ∧ st' = st)
       ∨ ((∃ n, concurrency = Some n ∧ (n < 1)%Z)
          ∧ e = ValueError ∧ st' = st)
       ∨ (∃ text buffer_size n,
            manifest = Some text
            ∧ int_of_product bufsize = Some buffer_size
            ∧ interrupted compressed_pipe remote s3_ssenc s3_base_path
                buffer_size 0 (splitlines text) n e
            ∧ st' = JobState (disk st)
                      (journal st
                       ++ JPool
                          :: results_of compressed_pipe remote s3_ssenc
                               s3_base_path buffer_size 0
                               (take n (splitlines text))))
       ∨ e = SystemExit 0
       ∨ e = SystemExit 1
       ∨ (incremental_backups = true ∧ e = OSError))
    ∧ disk st' ⊆ disk st
    ∧ ∀ f, f ∈ disk st → f ∉ disk st' →
        incremental_backups = true
        ∧ ∃ text, manifest = Some text ∧ f ∈ splitlines text.
Proof.
  assert (Hsame : disk st ⊆ disk st
                  ∧ ∀ f, f ∈ disk st → f ∉ disk st →
                      incremental_backups = true
                      ∧ ∃ text, manifest = Some text ∧ f ∈ splitlines text).
  { split; [done|]. intros f Hin Hout. by destruct Hout. }
  unfold put_from_manifest, read_manifest, buffer_size_of.
  destruct manifest as [text|].
  2:{ exists IOError, st. split; [done|]. split; [by left|done]. }
  destruct (int_of_product bufsize) as [buffer_size|] eqn:Hsize.
  2:{ exists OverflowError, st. split; [done|].
      split; [by right; left|done]. }
  unfold eff_bind at 1 2 3. unfold eff_ret at 1 2.
  assert (Hpool : pool_size_ok concurrency
                  ∨ ∃ n, concurrency = Some n ∧ (n < 1)%Z).
  { destruct concurrency as [n|]; [|by left; intros ? [=]].
    destruct (Z.ltb_spec n 1) as [Hn|Hn]; [right; by exists n|].
    left. by intros ? [= <-]. }
  destruct Hpool as [Hpool|(n & -> & Hn)].
  2:{ unfold Pool. destruct (Z.ltb_spec n 1); [|lia].
      exists ValueError, st. split; [done|]. split; [|done].
      right; right; left. split; [|done]. by exists n. }
  rewrite Pool_runs by done.
  destruct (consume_results_runs compressed_pipe remote s3_ssenc s3_base_path
              buffer_size (splitlines text) 0
              (JobState (disk st) (journal st ++ [JPool])))
    as (n & [(code & E & Hn)|(e & E & Hn)]); simpl in E.
  2:{ unfold eff_bind at 1. rewrite E. eexists e, _. split; [done|].
      split; [|done].
      right; right; right; left. exists text, buffer_size, n.
      by rewrite <- app_assoc. }
  assert (Hcode : code = 0 ∨ code = 1).
  { destruct Hn as [(-> & _)|(-> & _)]; [by left|by right]. }
  unfold eff_bind at 1. rewrite E. eff_unfold. simpl.
  destruct incremental_backups.
  - edestruct (remove_files_within (splitlines text))
      as (r & st' & -> & Hr & Hsub & Hlisted).
    simpl in *.
    assert (Hdisk : disk st' ⊆ disk st
                    ∧ ∀ f, f ∈ disk st → f ∉ disk st' →
                        true = true
                        ∧ ∃ text', Some text = Some text'
                                   ∧ f ∈ splitlines text').
    { split; [done|]. intros f Hin Hout. split; [done|].
      exists text. split; [done|]. by apply Hlisted. }
    destruct Hr as [->| ->].
    + eexists _, st'. split; [done|]. split; [|done].
      destruct Hcode as [-> | ->]; [by do 4 right; left|].
      by do 5 right; left.
    + eexists _, st'. split; [done|]. split; [by do 6 right|done].
  - eexists _, _. split; [done|]. simpl. split; [|done].
    destruct Hcode as [-> | ->]; [by do 4 right; left|].
    by do 5 right; left.
Qed.

(** ** destination_path *)

Lemma string_length_app (s t : string) :
  String.length (s +:+ t) = String.length s + String.length t.
Proof.
  induction s as [|c s IH]; simpl; [done|]. by rewrite IH.
Qed.

Lemma string_app_cancel_r (s t u : string) : s +:+ u = t +:+ u → s = t.
Proof.
  revert t. induction s as [|c s IH]; intros [|d t] H; simpl in *.
  - done.
  - apply (f_equal String.length) in H.
    rewrite !string_length_app in H. simpl in H. lia.
  - apply (f_equal String.length) in H.
    rewrite !string_length_app in H. simpl in H. lia.
  - injection H as -> H. f_equal. by apply IH.
Qed.

Lemma string_app_cancel_l (s t u : string) : u +:+ s = u +:+ t → s = t.
Proof.
  induction u as [|c u IH]; simpl; [done|]. intros H. injection H as H.
  by apply IH.
Qed.

(** X6: under one base path, distinct files get distinct keys, with or
    without the [.lzo] suffix: two tasks of a job never write to the same
    object unless the manifest lists the same path twice. *)
Theorem destination_path_injective (s3_base_path f g : string)
    (compressed : bool) :
  destination_path s3_base_path f compressed
  = destination_path s3_base_path g compressed →
  f = g.
Proof.
  unfold destination_path. intros H.
  apply string_app_cancel_l, string_app_cancel_l in H.
  by apply string_app_cancel_r in H.
Qed.

Lemma destination_path_injective_witness : "ks/t/a.db" = "ks/t/a.db".
Proof.
  apply (destination_path_injective "base" "ks/t/a.db" "ks/t/a.db" true).
  reflexivity.
Defined.

(** ** Strings: splitting what was joined *)

Lemma string_app_nil_r (s : string) : s +:+ "" = s.
Proof.
  induction s as [|c s IH]; [done|].
  change (String c s +:+ "") with (String c (s +:+ "")). by rewrite IH.
Qed.

Lemma string_app_assoc (s t u : string) : (s +:+ t) +:+ u = s +:+ (t +:+ u).
Proof.
  induction s as [|c s IH]; [done|].
  change (String c ((s +:+ t) +:+ u) = String c (s +:+ (t +:+ u))).
  by rewrite IH.
Qed.

Lemma split_on_free (sep : ascii) (s : string) :
  contains sep s = false → split_on sep s = [s].
Proof.
  induction s as [|c s IH]; simpl; [done|].
  intros [Hc Hs]%orb_false_iff. by rewrite Hc, IH.
Qed.

Lemma split_on_app (sep : ascii) (s rest : string) :
  contains sep s = false →
  split_on sep (s +:+ String sep rest) = s :: split_on sep rest.
Proof.
  induction s as [|c s IH].
  - intros _. change ("" +:+ String sep rest) with (String sep rest).
    simpl. by rewrite Ascii.eqb_refl.
  - intros [Hc Hs]%orb_false_iff.
    change (String c s +:+ String sep rest)
      with (String c (s +:+ String sep rest)).
    simpl. by rewrite Hc, IH.
Qed.

(** Splitting on newline undoes the join of single lines, unless there
    was nothing to join. *)
Lemma split_on_join (l : list string) :
  l ≠ [] →
  Forall (λ s, contains newline s = false) l →
  split_on newline (join (String newline "") l) = l.
Proof.
  intros Hne Hfree.
  induction Hfree as [|x l Hx Hl IH]; [done|]. clear Hne.
  destruct l as [|y l].
  - simpl. by apply split_on_free.
  - change (join (String newline "") (x :: y :: l))
      with (x +:+ String newline (join (String newline "") (y :: l))).
    rewrite split_on_app by done. by rewrite IH.
Qed.

Lemma split_on_parts_free (sep : ascii) (s : string) :
  Forall (λ p, contains sep p = false) (split_on sep s).
Proof.
  induction s as [|c s IH]; simpl; [by repeat constructor|].
  destruct (Ascii.eqb c sep) eqn:Hc; [by constructor|].
  destruct (split_on sep s) as [|hd tl].
  { constructor; [|done]. simpl. by rewrite Hc. }
  apply Forall_cons in IH as [Hhd Htl]. constructor; [|done].
  simpl. by rewrite Hc.
Qed.

(** ** Strings: strip *)

Lemma contains_lstrip (c : ascii) (s : string) :
  contains c s = false → contains c (lstrip s) = false.
Proof.
  induction s as [|d s IH]; simpl; [done|].
  intros [Hd Hs]%orb_false_iff. destruct (is_space d); [by apply IH|].
  simpl. by rewrite Hd, Hs.
Qed.

Lemma contains_rstrip (c : ascii) (s : string) :
  contains c s = false → contains c (rstrip s) = false.
Proof.
  induction s as [|d s IH]; simpl; [done|].
  intros [Hd Hs]%orb_false_iff. specialize (IH Hs).
  destruct (rstrip s) as [|e r].
  - destruct (is_space d); simpl; [done|]. by rewrite Hd.
  - simpl in *. by rewrite Hd, IH.
Qed.

Lemma rstrip_idempotent (s : string) : rstrip (rstrip s) = rstrip s.
Proof.
  induction s as [|c s IH]; simpl; [done|].
  destruct (rstrip s) as [|d r] eqn:Hr.
  - destruct (is_space c) eqn:Hc; simpl; [done|]. by rewrite Hc.
  - simpl in *. by rewrite IH.
Qed.

Lemma lstrip_rstrip_lstrip (s : string) :
  lstrip (rstrip (lstrip s)) = rstrip (lstrip s).
Proof.
  induction s as [|c s IH]; simpl; [done|].
  destruct (is_space c) eqn:Hc; [done|]. simpl.
  destruct (rstrip s) as [|d r]; rewrite ?Hc; simpl; by rewrite Hc.
Qed.

Lemma strip_idempotent (s : string) : strip (strip s) = strip s.
Proof.
  unfold strip. by rewrite lstrip_rstrip_lstrip, rstrip_idempotent.
Qed.

Lemma contains_strip (c : ascii) (s : string) :
  contains c s = false → contains c (strip s) = false.
Proof.
  intros Hs. by apply contains_rstrip, contains_lstrip.
Qed.

(** ** What create_upload_manifest lists *)

Lemma Forall_concat {A} (P : A → Prop) (ls : list (list A)) :
  Forall (Forall P) ls → Forall P (concat ls).
Proof.
  induction 1 as [|l ls Hl _ IH]; simpl; [done|]. by apply Forall_app.
Qed.

Section ManifestFacts.
Variable glob : string → list string.
Variable get_data_path : string → list string.

(** X7: for a pattern that matches something, the entries added to [files]
    are the matches in glob order, each with the whitespace around it
    stripped, provided no matched name has a line feed in it.  A file whose
    name starts or ends with whitespace is thus listed under another
    name. *)
Theorem glob_entries_are_stripped_matches (pattern : string) :
  glob pattern ≠ [] →
  Forall (λ f, contains newline f = false) (glob pattern) →
  glob_entries glob pattern = map strip (glob pattern).
Proof.
  intros Hne Hfree. unfold glob_entries. by rewrite split_on_join.
Qed.

Lemma glob_entries_clean (pattern : string) :
  Forall (λ f, contains newline f = false ∧ strip f = f)
    (glob_entries glob pattern).
Proof.
  unfold glob_entries. apply Forall_map.
  eapply Forall_impl; [apply split_on_parts_free|].
  intros p Hp. simpl. split; [by apply contains_strip|].
  apply strip_idempotent.
Qed.

Lemma manifest_files_clean (snapshot_name snapshot_keyspaces
    snapshot_table conf_path : string) (incremental_backups : bool) :
  Forall (λ f, contains newline f = false ∧ strip f = f)
    (manifest_files glob get_data_path snapshot_name snapshot_keyspaces
       snapshot_table conf_path incremental_backups).
Proof.
  unfold manifest_files. apply Forall_concat, Forall_map, Forall_forall.
  intros data_path _. simpl. apply Forall_concat, Forall_map, Forall_forall.
  intros keyspace_glob _. simpl. apply glob_entries_clean.
Qed.

(** X8: every entry of the manifest is free of line feeds and of
    surrounding whitespace, whatever [glob] returns: each entry takes one
    line of the manifest and stripping it again changes nothing. *)
Theorem manifest_entries_are_clean (snapshot_name snapshot_keyspaces
    snapshot_table conf_path : string) (incremental_backups : bool) :
  Forall (λ f, contains newline f = false ∧ strip f = f)
    (manifest_files glob get_data_path snapshot_name snapshot_keyspaces
       snapshot_table conf_path incremental_backups).
Proof.
  apply manifest_files_clean.
Qed.
End ManifestFacts.

Lemma glob_entries_are_stripped_matches_witness :
  glob_entries sample_glob "/d2/ks/*/snapshots/s1/*"
  = map strip (sample_glob "/d2/ks/*/snapshots/s1/*").
Proof.
  apply (glob_entries_are_stripped_matches sample_glob
           "/d2/ks/*/snapshots/s1/*").
  - discriminate.
  - by repeat constructor.
Defined.

Lemma split_ws_all_space (s : string) : all_space s = true → split_ws s = [].
Proof.
  unfold split_ws. induction s as [|c s IH]; simpl; [done|].
  intros [Hc Hs]%andb_true_iff. rewrite Hc. simpl. by apply IH.
Qed.

Lemma concat_all_nil {A B} (l : list A) :
  concat (map (λ _ : A, @nil B) l) = [].
Proof.
  induction l as [|x l IH]; simpl; [done|]. exact IH.
Qed.

(** X9: a keyspace filter made of whitespace only selects nothing.  The
    empty filter stands for every keyspace, but a filter such as [" "] is
    not empty and splits into no pattern at all: no glob is run and the
    manifest is written empty, whatever is on disk. *)
Theorem blank_keyspace_filter_lists_nothing
    (glob : string → list string) (get_data_path : string → list string)
    (snapshot_name snapshot_keyspaces snapshot_table conf_path : string)
    (incremental_backups : bool) :
  snapshot_keyspaces ≠ "" → all_space snapshot_keyspaces = true →
  manifest_files glob get_data_path snapshot_name snapshot_keyspaces
    snapshot_table conf_path incremental_backups = []
  ∧ create_upload_manifest glob get_data_path snapshot_name
      snapshot_keyspaces snapshot_table conf_path incremental_backups = "".
Proof.
  intros Hne Hblank.
  assert (Hfiles : manifest_files glob get_data_path snapshot_name
    snapshot_keyspaces snapshot_table conf_path incremental_backups = []).
  { unfold manifest_files, keyspace_globs_of.
    rewrite decide_False by done. rewrite split_ws_all_space by done.
    simpl. apply concat_all_nil. }
  split; [exact Hfiles|]. unfold create_upload_manifest. by rewrite Hfiles.
Qed.

Lemma blank_keyspace_filter_lists_nothing_witness :
  manifest_files sample_glob sample_data_paths "s1" " " "" "/etc" false = []
  ∧ create_upload_manifest sample_glob sample_data_paths "s1" " " "" "/etc"
      false = "".
Proof.
  apply (blank_keyspace_filter_lists_nothing sample_glob sample_data_paths
           "s1" " " "" "/etc" false); [discriminate|reflexivity].
Defined.

(** X10: a keyspace pattern that starts with a slash leaves the data
    directory: [os.path.join] drops what comes before an absolute
    component, so the pattern globbed is the same for every data path. *)
Theorem absolute_keyspace_drops_data_path
    (snapshot_name table_glob : string) (incremental_backups : bool)
    (data_path data_path' keyspace_glob : string) :
  starts_with_slash keyspace_glob = true →
  snapshot_pattern snapshot_name table_glob incremental_backups data_path
    keyspace_glob
  = snapshot_pattern snapshot_name table_glob incremental_backups data_path'
      keyspace_glob.
Proof.
  intros Habs. unfold snapshot_pattern.
  destruct incremental_backups; simpl; by rewrite Habs.
Qed.

Lemma absolute_keyspace_drops_data_path_witness :
  snapshot_pattern "s1" "*" false "/var/lib/cassandra" "/etc"
  = snapshot_pattern "s1" "*" false "/data" "/etc".
Proof.
  apply (absolute_keyspace_drops_data_path "s1" "*" false
           "/var/lib/cassandra" "/data" "/etc").
  reflexivity.
Defined.

(** ** The manifest, written and read back *)

Lemma splitlines_from_line (cur s rest : string) :
  single_line s →
  splitlines_from cur (s +:+ String newline rest)
  = (cur +:+ s) :: splitlines_from "" rest.
Proof.
  revert cur. induction s as [|c s IH]; intros cur [Hlf Hcr].
  - change ("" +:+ String newline rest) with (String newline rest).
    simpl. by rewrite string_app_nil_r.
  - change (String c s +:+ String newline rest)
      with (String c (s +:+ String newline rest)).
    simpl in Hlf, Hcr.
    apply orb_false_iff in Hlf as [Hc1 Hlf].
    apply orb_false_iff in Hcr as [Hc2 Hcr].
    cbn [splitlines_from]. rewrite Hc1, Hc2.
    rewrite IH by done. by rewrite string_app_assoc.
Qed.

Lemma splitlines_from_last (cur s : string) :
  single_line s →
  splitlines_from cur s
  = if decide (cur +:+ s = "") then [] else [cur +:+ s].
Proof.
  revert cur. induction s as [|c s IH]; intros cur [Hlf Hcr].
  - simpl. by rewrite string_app_nil_r.
  - simpl in Hlf, Hcr.
    apply orb_false_iff in Hlf as [Hc1 Hlf].
    apply orb_false_iff in Hcr as [Hc2 Hcr].
    cbn [splitlines_from]. rewrite Hc1, Hc2.
    rewrite IH by done. by rewrite string_app_assoc.
Qed.

(** Reading back the lines that were joined: only an empty last line is
    lost. *)
Lemma splitlines_join (files : list string) :
  Forall single_line files → last files ≠ Some "" →
  splitlines (join (String newline "") files) = files.
Proof.
  unfold splitlines. intros Hlines.
  induction Hlines as [|x l Hx Hl IH]; intros Hlast; [done|].
  destruct l as [|y l].
  - simpl in *. rewrite splitlines_from_last by done.
    change ("" +:+ x) with x. rewrite decide_False; [done|].
    intros ->. by apply Hlast.
  - change (join (String newline "") (x :: y :: l))
      with (x +:+ String newline (join (String newline "") (y :: l))).
    rewrite splitlines_from_line by done. change ("" +:+ x) with x.
    rewrite IH; [done|]. by rewrite last_cons_cons in Hlast.
Qed.

(** X11: [put_from_manifest] reads back the files that
    [create_upload_manifest] listed, in the same order, when no entry has a
    carriage return in it and the last entry is not empty.  (An empty last
    entry, left by a last pattern without matches, is the one that is
    lost.) *)
Theorem manifest_is_read_back
    (glob : string → list string) (get_data_path : string → list string)
    (snapshot_name snapshot_keyspaces snapshot_table conf_path : string)
    (incremental_backups : bool) :
  Forall (λ f, contains carriage_return f = false)
    (manifest_files glob get_data_path snapshot_name snapshot_keyspaces
       snapshot_table conf_path incremental_backups) →
  last (manifest_files glob get_data_path snapshot_name snapshot_keyspaces
          snapshot_table conf_path incremental_backups) ≠ Some "" →
  splitlines
    (create_upload_manifest glob get_data_path snapshot_name
       snapshot_keyspaces snapshot_table conf_path incremental_backups)
  = manifest_files glob get_data_path snapshot_name snapshot_keyspaces
      snapshot_table conf_path incremental_backups.
Proof.
  intros Hcr Hlast. unfold create_upload_manifest.
  apply splitlines_join; [|done].
  pose proof (manifest_files_clean glob get_data_path snapshot_name
                snapshot_keyspaces snapshot_table conf_path
                incremental_backups) as Hclean.
  apply Forall_forall. intros f Hf. split.
  - by apply (proj1 (Forall_forall _ _) Hclean f Hf).
  - by apply (proj1 (Forall_forall _ _) Hcr f Hf).
Qed.

Lemma manifest_is_read_back_witness :
  splitlines
    (create_upload_manifest sample_glob sample_data_paths "s1" "ks" "" "/etc"
       false)
  = manifest_files sample_glob sample_data_paths "s1" "ks" "" "/etc" false.
Proof.
  apply (manifest_is_read_back sample_glob sample_data_paths "s1" "ks" ""
           "/etc" false).
  - by repeat constructor.
  - discriminate.
Defined.

(** * The empty entry of a pattern without matches *)



(** The manifest written for the sample has two lines for one matching
    file, the first of them empty. *)
Lemma sample_manifest_has_empty_line :
  create_upload_manifest sample_glob sample_data_paths "s1" "ks" "" "/etc"
    false = lines [""; "/d2/ks/t/snapshots/s1/x.db"]
  ∧ splitlines
      (create_upload_manifest sample_glob sample_data_paths "s1" "ks" ""
         "/etc" false) = [""; "/d2/ks/t/snapshots/s1/x.db"].
Proof. split; vm_compute; reflexivity. Qed.
